(** * Macrocirculation1D0D: the upwind flux evaluator

    A shallow embedding of [FlowUpwindEvaluator] (flow_upwind_evaluator.cpp,
    kept as src/unnamed/part_004): the per-time-step cache of
    boundary values and upwinded fluxes, its [init] pipeline, the two guarded
    accessors and the damped Newton solve of the Windkessel outflow.

    - C++ [double] is Rocq's primitive binary64 [float]; [!=], [>] are the
      IEEE comparisons, so NaN compares unequal to everything.
    - [std::vector<double>] is [list float]; [v[i]] has no range check in C++.
    - The evaluator object and [std::cerr] form the state of a small
      state-and-exception monad; an exception leaves the mutated object behind,
      as in C++.
    - Collaborators whose code lives in other translation units (the formulas of
      vessel_formulas.hpp, the finite element, the dof map, the ghost-layer
      communicator, [std::pow]) are parameters of the development. *)

From Stdlib Require Import ZArith Floats String Lia.
From Stdlib Require Uint63.
From stdpp Require Import base list.

Set Warnings "-inexact-float".

Local Open Scope nat_scope.

(** ** Doubles *)

Abbreviation double := float (only parsing).

(** C++ [a != b] on doubles. *)
Definition double_ne (a b : double) : bool := negb (a =? b)%float.

(** Conversion of a [size_t] to [double], as in [length / num_micro_edges()]. *)
Definition double_of_size (n : nat) : double :=
  PrimFloat.of_uint63 (Uint63.of_Z (Z.of_nat n)).

(** [size_t] subtraction wraps modulo 2^64. *)
Definition size_sub (a b : nat) : nat :=
  Z.to_nat ((Z.of_nat a - Z.of_nat b) mod 2 ^ 64).

(** [v[i]] on a vector of doubles. Reading outside the vector is undefined in
    C++; the model returns 0 there. *)
Definition vec_get (v : list double) (i : nat) : double :=
  default 0%float (v !! i).

(** [v[i] = x]. Writing outside the vector is undefined in C++; the model
    leaves the vector as it is. *)
Definition vec_set (v : list double) (i : nat) (x : double) : list double :=
  <[i := x]> v.

(** ** Results, exceptions and the evaluator monad *)

Inductive Result (A : Type) : Type :=
| Ok (a : A)                 (* normal return *)
| Throw (what : string)      (* std::runtime_error *)
| AssertionFailed.           (* a failed assert() *)
Arguments Ok {A} a.
Arguments Throw {A} what.
Arguments AssertionFailed {A}.

Definition is_ok {A} (r : Result A) : bool :=
  match r with Ok _ => true | _ => false end.

Definition is_throw {A} (r : Result A) : bool :=
  match r with Throw _ => true | _ => false end.

(** ** Graph model *)

(** Modelled from the spec: graph_storage.hpp is not among the sources.
    "Physical Data ... elastic parameter G0, reference area A0, fluid density
    rho, length". *)
Record PhysicalData := {
  G0 : double;
  A0 : double;
  rho : double;
  length : double;
}.

(** The triple handed to the junction solver, [p_e.emplace_back(G0, A0, rho)]. *)
Record VesselParameters := {
  vp_G0 : double;
  vp_A0 : double;
  vp_rho : double;
}.

(** Modelled from the spec: "Edge (macro-edge): identity, ordered pair of
    endpoint vertex ids (defines orientation - is pointing to a vertex is
    derived from this ordering) ... physical data record". *)
Record Edge := {
  e_id : nat;
  e_vertex_neighbors : nat * nat;
  e_physical_data : PhysicalData;
}.

Definition is_pointing_to (e : Edge) (vertex_id : nat) : bool :=
  Nat.eqb (snd (e_vertex_neighbors e)) vertex_id.

(** Modelled from the spec: "Vertex: identity, name, boundary classification
    (Inner/Bifurcation, InflowPrescribed, FreeOutflow, WindkesselOutflow,
    VesselTreeOutflow, NonlinearCharacteristicInflow), list of incident edge
    identifiers, optional boundary parameters (inflow waveform, ...)". *)
Inductive FlowType : Type :=
| Inner
| InflowPrescribed (inflow_value : double -> double)
| FreeOutflow
| WindkesselOutflow
| VesselTreeOutflow
| NonlinearCharacteristicInflow.

Record Vertex := {
  v_id : nat;
  v_edge_neighbors : list nat;
  v_flow_type : FlowType;
}.

(** Modelled from the spec: "leaf vertices - degree 1". *)
Definition is_leaf (v : Vertex) : bool :=
  Nat.eqb (List.length (v_edge_neighbors v)) 1.

(** Modelled from the spec: "every vertex has exactly one classification";
    the queries below read it off the tag. *)
Definition is_bifurcation (v : Vertex) : bool :=
  match v_flow_type v with Inner => true | _ => false end.

Definition is_inflow (v : Vertex) : bool :=
  match v_flow_type v with InflowPrescribed _ => true | _ => false end.

Definition is_free_outflow (v : Vertex) : bool :=
  match v_flow_type v with FreeOutflow => true | _ => false end.

Definition is_windkessel_outflow (v : Vertex) : bool :=
  match v_flow_type v with WindkesselOutflow => true | _ => false end.

Definition get_inflow_value (v : Vertex) (t : double) : double :=
  match v_flow_type v with
  | InflowPrescribed w => w t
  | _ => 0%float
  end.

(** Modelled from the spec: "an arena of vertices and edges addressed by
    integer id"; the active ids are those of the worker running the evaluator. *)
Record GraphStorage := {
  get_vertex : nat -> Vertex;
  get_edge : nat -> Edge;
  num_edges : nat;
  get_active_vertex_ids : list nat;
  get_active_edge_ids : list nat;
}.

(** ** Dof map *)

(** Modelled from the spec: dof_map.hpp is not among the sources. "for each
    macro-edge, a contiguous block of global indices per micro-edge per
    variable (Q, A), and for each boundary vertex, a small local block". A
    macro-edge of n micro-edges has n + 1 micro-vertices. *)
Record LocalEdgeDofMap := {
  num_micro_edges : nat;
  num_basis_functions : nat;
  edge_dof_indices : nat -> nat -> list nat;  (* micro-edge, component *)
}.

Definition num_micro_vertices (m : LocalEdgeDofMap) : nat :=
  num_micro_edges m + 1.

Record LocalVertexDofMap := {
  num_local_dof : nat;
  vertex_dof_indices : list nat;
}.

Record DofMap := {
  get_local_dof_map : Edge -> LocalEdgeDofMap;
  get_local_dof_map_vertex : Vertex -> LocalVertexDofMap;
}.

(** ** The evaluator object *)

Record FlowUpwindEvaluator := {
  d_Q_macro_edge_boundary_value : list double;
  d_A_macro_edge_boundary_value : list double;
  d_Q_macro_edge_flux_l : list double;
  d_Q_macro_edge_flux_r : list double;
  d_A_macro_edge_flux_l : list double;
  d_A_macro_edge_flux_r : list double;
  d_current_t : double;
}.

(** The evaluator together with the process-wide [std::cerr]. *)
Record World := {
  self : FlowUpwindEvaluator;
  cerr : list string;
}.

Definition M (A : Type) : Type := World -> Result A * World.

Definition ret {A} (a : A) : M A := fun w => (Ok a, w).

Definition bind {A B} (m : M A) (k : A -> M B) : M B :=
  fun w =>
    match m w with
    | (Ok a, w') => k a w'
    | (Throw what, w') => (Throw what, w')
    | (AssertionFailed, w') => (AssertionFailed, w')
    end.

Notation "x <- m ;; k" := (bind m (fun x => k))
  (at level 100, m at next level, right associativity).
Notation "m ;; k" := (bind m (fun _ => k))
  (at level 100, right associativity).

Definition throw {A} (what : string) : M A := fun w => (Throw what, w).

(** [assert(b)] with assertions compiled in. The default build type of the
    project is Release, which defines NDEBUG and removes every [assert]; where
    [b] holds the two builds do the same. *)
Definition assert_ (b : bool) : M unit :=
  fun w => if b then (Ok tt, w) else (AssertionFailed, w).

Definition gets {A} (f : FlowUpwindEvaluator -> A) : M A :=
  fun w => (Ok (f (self w)), w).

Definition modify (f : FlowUpwindEvaluator -> FlowUpwindEvaluator) : M unit :=
  fun w => (Ok tt, {| self := f (self w); cerr := cerr w |}).

Definition print_cerr (lines : list string) : M unit :=
  fun w => (Ok tt, {| self := self w; cerr := cerr w ++ lines |}).

Fixpoint for_each {A} (l : list A) (body : A -> M unit) : M unit :=
  match l with
  | [] => ret tt
  | x :: l' => body x ;; for_each l' body
  end.

(** Field updates. *)
Definition set_Q_boundary_value (f : list double -> list double) (s : FlowUpwindEvaluator) :=
  {| d_Q_macro_edge_boundary_value := f (d_Q_macro_edge_boundary_value s);
     d_A_macro_edge_boundary_value := d_A_macro_edge_boundary_value s;
     d_Q_macro_edge_flux_l := d_Q_macro_edge_flux_l s;
     d_Q_macro_edge_flux_r := d_Q_macro_edge_flux_r s;
     d_A_macro_edge_flux_l := d_A_macro_edge_flux_l s;
     d_A_macro_edge_flux_r := d_A_macro_edge_flux_r s;
     d_current_t := d_current_t s |}.

Definition set_A_boundary_value (f : list double -> list double) (s : FlowUpwindEvaluator) :=
  {| d_Q_macro_edge_boundary_value := d_Q_macro_edge_boundary_value s;
     d_A_macro_edge_boundary_value := f (d_A_macro_edge_boundary_value s);
     d_Q_macro_edge_flux_l := d_Q_macro_edge_flux_l s;
     d_Q_macro_edge_flux_r := d_Q_macro_edge_flux_r s;
     d_A_macro_edge_flux_l := d_A_macro_edge_flux_l s;
     d_A_macro_edge_flux_r := d_A_macro_edge_flux_r s;
     d_current_t := d_current_t s |}.

(** [d_Q_macro_edge_flux_l[id] = Q; d_A_macro_edge_flux_l[id] = A]. *)
Definition set_flux_l (id : nat) (Q A : double) (s : FlowUpwindEvaluator) :=
  {| d_Q_macro_edge_boundary_value := d_Q_macro_edge_boundary_value s;
     d_A_macro_edge_boundary_value := d_A_macro_edge_boundary_value s;
     d_Q_macro_edge_flux_l := vec_set (d_Q_macro_edge_flux_l s) id Q;
     d_Q_macro_edge_flux_r := d_Q_macro_edge_flux_r s;
     d_A_macro_edge_flux_l := vec_set (d_A_macro_edge_flux_l s) id A;
     d_A_macro_edge_flux_r := d_A_macro_edge_flux_r s;
     d_current_t := d_current_t s |}.

(** [d_Q_macro_edge_flux_r[id] = Q; d_A_macro_edge_flux_r[id] = A]. *)
Definition set_flux_r (id : nat) (Q A : double) (s : FlowUpwindEvaluator) :=
  {| d_Q_macro_edge_boundary_value := d_Q_macro_edge_boundary_value s;
     d_A_macro_edge_boundary_value := d_A_macro_edge_boundary_value s;
     d_Q_macro_edge_flux_l := d_Q_macro_edge_flux_l s;
     d_Q_macro_edge_flux_r := vec_set (d_Q_macro_edge_flux_r s) id Q;
     d_A_macro_edge_flux_l := d_A_macro_edge_flux_l s;
     d_A_macro_edge_flux_r := vec_set (d_A_macro_edge_flux_r s) id A;
     d_current_t := d_current_t s |}.

Definition set_current_t (t : double) (s : FlowUpwindEvaluator) :=
  {| d_Q_macro_edge_boundary_value := d_Q_macro_edge_boundary_value s;
     d_A_macro_edge_boundary_value := d_A_macro_edge_boundary_value s;
     d_Q_macro_edge_flux_l := d_Q_macro_edge_flux_l s;
     d_Q_macro_edge_flux_r := d_Q_macro_edge_flux_r s;
     d_A_macro_edge_flux_l := d_A_macro_edge_flux_l s;
     d_A_macro_edge_flux_r := d_A_macro_edge_flux_r s;
     d_current_t := t |}.

(** The upwinded pair cached for an edge at the side given by [in_]: the right
    end when the edge points to the vertex, the left end otherwise. *)
Definition set_flux (in_ : bool) (id : nat) (Q A : double) : M unit :=
  if in_ then modify (set_flux_r id Q A) else modify (set_flux_l id Q A).

Definition cached_flux (s : FlowUpwindEvaluator) (in_ : bool) (id : nat) : double * double :=
  if in_ then (vec_get (d_Q_macro_edge_flux_r s) id, vec_get (d_A_macro_edge_flux_r s) id)
  else (vec_get (d_Q_macro_edge_flux_l s) id, vec_get (d_A_macro_edge_flux_l s) id).

(** The boundary value of an edge next to a vertex: slot [2 id + 1] when the
    edge points to the vertex, slot [2 id] otherwise. *)
Definition boundary_slot (in_ : bool) (id : nat) : nat :=
  if in_ then 2 * id + 1 else 2 * id.

(** ** Constants of the Windkessel Newton solve *)

Definition TOL : double := 1.0e-10%float.
Definition omega : double := (0.5 / 2)%float.
Definition max_iter : Z := 250.
Definition newton_warning : string := "warning: Newton did not converge".
Definition not_initialized : string :=
  "FlowUpwindEvaluator was not initialized for the given time step".
Definition undefined_boundary_type : string := "undefined boundary type!".

(** Modelled from the spec: [calculate_static_p] of vessel_formulas.hpp is not
    among the sources. "a pressure-area law p(A) = G0 (sqrt(A/A0) - 1)". *)
Definition calculate_static_p (A G0 A0 : double) : double :=
  (G0 * (PrimFloat.sqrt (A / A0) - 1))%float.

(** The local variables of the Newton loop. *)
Record NewtonState := {
  ns_A_out : double;
  ns_error : double;
  ns_num_iter : Z;
  ns_cerr : list string;   (* lines the loop has written to std::cerr *)
}.

Section Evaluator.

(** [std::pow] of the C library. *)
Variable pow : double -> double -> double.

(** vessel_formulas.hpp, not among the sources. Arguments as in the calls:
    [calculate_W1_value(Q, A, G0, rho, A0)], [solve_W12(Q, A, W1, W2, G0,
    rho, A0)] returning its two reference arguments,
    [assemble_in_flow(Q, A, in, Q_star, G0, rho, A0)] and
    [solve_at_nfurcation(Q_e, A_e, p_e, e_in, Q_up, A_up)] returning
    [(Q_up, A_up)]. *)
Variable calculate_W1_value : double -> double -> double -> double -> double -> double.
Variable calculate_W2_value : double -> double -> double -> double -> double -> double.
Variable solve_W12 : double -> double -> double -> double -> double -> double * double.
Variable assemble_in_flow :
  double -> double -> bool -> double -> double -> double -> double -> double.
Variable solve_at_nfurcation :
  list double -> list double -> list VesselParameters -> list bool ->
  list double * list double -> list double * list double.

(** communication/mpi.hpp: the blocking ghost-layer exchange of one
    per-edge-boundary buffer. *)
Variable update_ghost_layer : list double -> list double.

(** fe_type.hpp: [FETypeNetwork(create_midpoint_rule(), degree)] after
    [reinit(h)], evaluated at the two end points, and
    [FETypeNetwork(create_trapezoidal_rule(), degree)] after [reinit(h)],
    evaluated at its two quadrature points; [extract_dof] gathers the local
    coefficients out of the global vector. *)
Variable evaluate_dof_at_boundary_points : nat -> double -> list double -> double * double.
Variable evaluate_dof_at_quadrature_points : nat -> double -> list double -> list double.
Variable extract_dof : list nat -> list double -> list double.

Variable d_graph : GraphStorage.
Variable d_dof_map : DofMap.

(** *** Constructor *)

Definition FlowUpwindEvaluator_new : FlowUpwindEvaluator :=
  {| d_Q_macro_edge_boundary_value := replicate (2 * num_edges d_graph) 0%float;
     d_A_macro_edge_boundary_value := replicate (2 * num_edges d_graph) 0%float;
     d_Q_macro_edge_flux_l := replicate (num_edges d_graph) 0%float;
     d_Q_macro_edge_flux_r := replicate (num_edges d_graph) 0%float;
     d_A_macro_edge_flux_l := replicate (num_edges d_graph) 0%float;
     d_A_macro_edge_flux_r := replicate (num_edges d_graph) 0%float;
     d_current_t := nan |}.

(** *** evaluate_macro_edge_boundary_values *)

Definition evaluate_edge_boundary_values (u_prev : list double) (e_id_ : nat) : M unit :=
  let edge := get_edge d_graph e_id_ in
  let param := e_physical_data edge in
  let local_dof_map := get_local_dof_map d_dof_map edge in
  let h := (length param / double_of_size (num_micro_edges local_dof_map))%float in
  let degree := size_sub (num_basis_functions local_dof_map) 1 in
  let last := size_sub (num_micro_edges local_dof_map) 1 in
  let at_boundary micro_edge component :=
    evaluate_dof_at_boundary_points degree h
      (extract_dof (edge_dof_indices local_dof_map micro_edge component) u_prev) in
  modify (set_Q_boundary_value (fun v => vec_set v (2 * e_id edge) (fst (at_boundary 0 0)))) ;;
  modify (set_A_boundary_value (fun v => vec_set v (2 * e_id edge) (fst (at_boundary 0 1)))) ;;
  modify (set_Q_boundary_value (fun v => vec_set v (2 * e_id edge + 1) (snd (at_boundary last 0)))) ;;
  modify (set_A_boundary_value (fun v => vec_set v (2 * e_id edge + 1) (snd (at_boundary last 1)))).

Definition evaluate_macro_edge_boundary_values (u_prev : list double) : M unit :=
  for_each (get_active_edge_ids d_graph) (evaluate_edge_boundary_values u_prev).

(** *** calculate_nfurcation_fluxes *)

Definition nfurcation_vertex (u_prev : list double) (v_id_ : nat) : M unit :=
  let vertex := get_vertex d_graph v_id_ in
  if negb (is_bifurcation vertex) then ret tt
  else
    let num_vessels := List.length (v_edge_neighbors vertex) in
    let e := map (get_edge d_graph) (v_edge_neighbors vertex) in
    let e_in := map (fun edge => is_pointing_to edge (v_id vertex)) e in
    let p_e := map (fun edge =>
                      let data_e := e_physical_data edge in
                      {| vp_G0 := G0 data_e; vp_A0 := A0 data_e; vp_rho := rho data_e |}) e in
    Q_bv <- gets d_Q_macro_edge_boundary_value ;;
    A_bv <- gets d_A_macro_edge_boundary_value ;;
    let Q_e := map (fun edge =>
                      vec_get Q_bv (boundary_slot (is_pointing_to edge (v_id vertex)) (e_id edge))) e in
    let A_e := map (fun edge =>
                      vec_get A_bv (boundary_slot (is_pointing_to edge (v_id vertex)) (e_id edge))) e in
    let up := solve_at_nfurcation Q_e A_e p_e e_in
                (replicate num_vessels 0%float, replicate num_vessels 0%float) in
    for_each (zip e (seq 0 num_vessels))
      (fun '(edge, vessel_idx) =>
         set_flux (is_pointing_to edge (v_id vertex)) (e_id edge)
           (vec_get (fst up) vessel_idx) (vec_get (snd up) vessel_idx)).

Definition calculate_nfurcation_fluxes (u_prev : list double) : M unit :=
  for_each (get_active_vertex_ids d_graph) (nfurcation_vertex u_prev).

(** *** The Windkessel residual and its Newton loop *)

Definition windkessel_c0 (param : PhysicalData) : double :=
  pow (G0 param / (2.0 * rho param))%float 0.5%float.

Definition windkessel_R1 (param : PhysicalData) : double :=
  (rho param * windkessel_c0 param / A0 param)%float.

(** The lambda [f]. *)
Definition windkessel_f (param : PhysicalData) (W p_c : double) (A_out : double) : double :=
  let c0 := windkessel_c0 param in
  let R1 := windkessel_R1 param in
  let p := (G0 param * (PrimFloat.sqrt (A_out / A0 param) - 1))%float in
  (W - (p - p_c) / (A_out * R1) - 4 * c0 * pow (A_out / A0 param) 0.25)%float.

(** The lambda [df]. *)
Definition windkessel_df (param : PhysicalData) (W p_c : double) (A_out : double) : double :=
  let c0 := windkessel_c0 param in
  let R1 := windkessel_R1 param in
  let p := (G0 param * (PrimFloat.sqrt (A_out / A0 param) - 1))%float in
  let dp := (G0 param * 0.5 / PrimFloat.sqrt (A_out * A0 param))%float in
  ((- dp) / (A_out * R1) + (p - p_c) / (A_out * A_out * R1)
   - c0 * pow A_out (-0.75) / pow (A0 param) 0.25)%float.

(** One execution of the body of the [while] loop. *)
Definition newton_body (f df : double -> double) (s : NewtonState) : NewtonState :=
  let f_value := f (ns_A_out s) in
  let df_value := df (ns_A_out s) in
  let dx := ((- f_value) / df_value)%float in
  let A_out := (ns_A_out s + omega * dx)%float in
  let error := PrimFloat.abs (f A_out) in
  let num_iter := (ns_num_iter s + 1)%Z in
  {| ns_A_out := A_out;
     ns_error := error;
     ns_num_iter := num_iter;
     ns_cerr := if (num_iter =? max_iter)%Z
                then ns_cerr s ++ [newton_warning] else ns_cerr s |}.

(** [while (num_iter < 250 && error > TOL)]. *)
Definition newton_continue (s : NewtonState) : bool :=
  (ns_num_iter s <? max_iter)%Z && (TOL <? ns_error s)%float.

Fixpoint newton_loop (fuel : nat) (f df : double -> double) (s : NewtonState) : NewtonState :=
  match fuel with
  | O => s
  | S fuel' =>
      if newton_continue s then newton_loop fuel' f df (newton_body f df s) else s
  end.

(** The loop from its initial state [error = INFINITY, num_iter = 0,
    A_out = A]. The counter bounds the loop, so 250 units of fuel let it
    leave by its own condition (lemma [newton_loop_exits]). *)
Definition newton_init (A : double) : NewtonState :=
  {| ns_A_out := A; ns_error := infinity; ns_num_iter := 0; ns_cerr := [] |}.

Definition windkessel_newton (param : PhysicalData) (W p_c A : double) : NewtonState :=
  newton_loop (250) (windkessel_f param W p_c) (windkessel_df param W p_c)
    (newton_init A).

(** *** calculate_inout_fluxes *)

Definition Q_init : double := 0%float.

Definition inout_vertex (t : double) (u_prev : list double) (v_id_ : nat) : M unit :=
  let vertex := get_vertex d_graph v_id_ in
  if is_leaf vertex then
    let edge := get_edge d_graph (nth 0 (v_edge_neighbors vertex) 0) in
    let param := e_physical_data edge in
    let in_ := is_pointing_to edge (v_id vertex) in
    Q_bv <- gets d_Q_macro_edge_boundary_value ;;
    A_bv <- gets d_A_macro_edge_boundary_value ;;
    let Q := vec_get Q_bv (boundary_slot in_ (e_id edge)) in
    let A := vec_get A_bv (boundary_slot in_ (e_id edge)) in
    if is_inflow vertex then
      let Q_star := ((if in_ then -1 else 1) * get_inflow_value vertex t)%float in
      let A_up := assemble_in_flow Q A in_ Q_star (G0 param) (rho param) (A0 param) in
      set_flux in_ (e_id edge) Q_star A_up
    else if is_free_outflow vertex then
      let A_init := A0 param in
      let W1 := if in_
                then calculate_W1_value Q_init A_init (G0 param) (rho param) (A0 param)
                else calculate_W1_value Q A (G0 param) (rho param) (A0 param) in
      let W2 := if in_
                then calculate_W2_value Q A (G0 param) (rho param) (A0 param)
                else calculate_W2_value Q_init A_init (G0 param) (rho param) (A0 param) in
      let up := solve_W12 W1 W2 (G0 param) (rho param) (A0 param) in
      set_flux in_ (e_id edge) (fst up) (snd up)
    else if is_windkessel_outflow vertex then
      let is_pointing_to_ := is_pointing_to edge (v_id vertex) in
      let vertex_dof_map := get_local_dof_map_vertex d_dof_map vertex in
      assert_ (Nat.eqb (num_local_dof vertex_dof_map) 1) ;;
      let vertex_dofs := vertex_dof_indices vertex_dof_map in
      let p_c := vec_get u_prev (nth 0 vertex_dofs 0) in
      let R1 := windkessel_R1 param in
      let W := if is_pointing_to_
               then calculate_W2_value Q A (G0 param) (rho param) (A0 param)
               else calculate_W1_value Q A (G0 param) (rho param) (A0 param) in
      let s := windkessel_newton param W p_c A in
      print_cerr (ns_cerr s) ;;
      let A_out := ns_A_out s in
      let sgn := if is_pointing_to_ then 1%float else (-1)%float in
      let Q_out := (sgn * (calculate_static_p A_out (G0 param) (A0 param) - p_c) / R1)%float in
      set_flux is_pointing_to_ (e_id edge) Q_out A_out
    else throw undefined_boundary_type
  else ret tt.

Definition calculate_inout_fluxes (t : double) (u_prev : list double) : M unit :=
  for_each (get_active_vertex_ids d_graph) (inout_vertex t u_prev).

(** *** init *)

Definition init (t : double) (u_prev : list double) : M unit :=
  modify (set_current_t t) ;;
  evaluate_macro_edge_boundary_values u_prev ;;
  modify (set_Q_boundary_value update_ghost_layer) ;;
  modify (set_A_boundary_value update_ghost_layer) ;;
  calculate_nfurcation_fluxes u_prev ;;
  calculate_inout_fluxes t u_prev.

(** The world in which the vertex resolutions of [init] start: the time
    stamp set, the boundary values extracted, the two buffers exchanged. *)
Definition after_exchange (t : double) (u_prev : list double) (w : World) : World :=
  let w0 := {| self := set_current_t t (self w); cerr := cerr w |} in
  let w1 := snd (evaluate_macro_edge_boundary_values u_prev w0) in
  {| self := set_A_boundary_value update_ghost_layer
               (set_Q_boundary_value update_ghost_layer (self w1));
     cerr := cerr w1 |}.

(** *** get_fluxes_on_macro_edge *)

(** The upwinded pair at the internal micro-vertex [micro_vertex_id]: the
    body of the [for] loop up to the two stores. *)
Definition micro_vertex_upwind (edge : Edge) (u_prev : list double) (micro_vertex_id : nat)
  : double * double :=
  let local_dof_map := get_local_dof_map d_dof_map edge in
  let param := e_physical_data edge in
  let h := (length param / double_of_size (num_micro_edges local_dof_map))%float in
  let degree := size_sub (num_basis_functions local_dof_map) 1 in
  let local_micro_edge_id_l := micro_vertex_id - 1 in
  let local_micro_edge_id_r := micro_vertex_id in
  let at_qp micro_edge component :=
    evaluate_dof_at_quadrature_points degree h
      (extract_dof (edge_dof_indices local_dof_map micro_edge component) u_prev) in
  let Q_l := vec_get (at_qp local_micro_edge_id_l 0) 1 in
  let A_l := vec_get (at_qp local_micro_edge_id_l 1) 1 in
  let Q_r := vec_get (at_qp local_micro_edge_id_r 0) 0 in
  let A_r := vec_get (at_qp local_micro_edge_id_r 1) 0 in
  let W2_l := calculate_W2_value Q_l A_l (G0 param) (rho param) (A0 param) in
  let W1_r := calculate_W1_value Q_r A_r (G0 param) (rho param) (A0 param) in
  solve_W12 W1_r W2_l (G0 param) (rho param) (A0 param).

(** [for (micro_vertex_id = 1; micro_vertex_id < num_micro_vertices() - 1;
    ...)]; [num_micro_vertices() >= 1], so the bound does not wrap. *)
Definition upwind_interior (edge : Edge) (u_prev : list double)
    (up : list double * list double) : list double * list double :=
  let local_dof_map := get_local_dof_map d_dof_map edge in
  fold_left
    (fun up micro_vertex_id =>
       let QA := micro_vertex_upwind edge u_prev micro_vertex_id in
       (vec_set (fst up) micro_vertex_id (fst QA),
        vec_set (snd up) micro_vertex_id (snd QA)))
    (seq 1 (num_micro_vertices local_dof_map - 1 - 1)) up.

Definition get_fluxes_on_macro_edge (t : double) (edge : Edge) (u_prev : list double)
    (Q_up_macro_edge A_up_macro_edge : list double) : M (list double * list double) :=
  current_t <- gets d_current_t ;;
  if double_ne current_t t then throw not_initialized
  else
    let local_dof_map := get_local_dof_map d_dof_map edge in
    assert_ (Nat.eqb (List.length Q_up_macro_edge) (num_micro_vertices local_dof_map)) ;;
    assert_ (Nat.eqb (List.length A_up_macro_edge) (num_micro_vertices local_dof_map)) ;;
    let up := upwind_interior edge u_prev (Q_up_macro_edge, A_up_macro_edge) in
    Q_flux_l <- gets d_Q_macro_edge_flux_l ;;
    A_flux_l <- gets d_A_macro_edge_flux_l ;;
    Q_flux_r <- gets d_Q_macro_edge_flux_r ;;
    A_flux_r <- gets d_A_macro_edge_flux_r ;;
    let Q_up := vec_set (fst up) 0 (vec_get Q_flux_l (e_id edge)) in
    let A_up := vec_set (snd up) 0 (vec_get A_flux_l (e_id edge)) in
    let Q_up := vec_set Q_up (num_micro_vertices local_dof_map - 1) (vec_get Q_flux_r (e_id edge)) in
    let A_up := vec_set A_up (num_micro_vertices local_dof_map - 1) (vec_get A_flux_r (e_id edge)) in
    ret (Q_up, A_up).

(** *** get_fluxes_on_nfurcation *)

Definition get_fluxes_on_nfurcation (t : double) (v : Vertex) (Q_up A_up : list double)
  : M (list double * list double) :=
  current_t <- gets d_current_t ;;
  if double_ne current_t t then throw not_initialized
  else
    let n := List.length (v_edge_neighbors v) in
    s <- gets (fun s => s) ;;
    ret (fold_left
           (fun up '(e_id_, neighbor_edge_idx) =>
              let edge := get_edge d_graph e_id_ in
              let QA := cached_flux s (is_pointing_to edge (v_id v)) (e_id edge) in
              (vec_set (fst up) neighbor_edge_idx (fst QA),
               vec_set (snd up) neighbor_edge_idx (snd QA)))
           (zip (v_edge_neighbors v) (seq 0 n))
           (resize n 0%float Q_up, resize n 0%float A_up)).

End Evaluator.

(** ** Vocabulary of the properties *)

(** The worlds in which the successive bodies of a [for_each] start. *)
Fixpoint entry_worlds {A} (l : list A) (body : A -> M unit) (w : World) : list World :=
  match l with
  | [] => []
  | x :: l' =>
      w :: match body x w with
           | (Ok _, w') => entry_worlds l' body w'
           | _ => []
           end
  end.

(** The two boundary-value buffers of an evaluator. *)
Definition boundary_values (s : FlowUpwindEvaluator) : list double * list double :=
  (d_Q_macro_edge_boundary_value s, d_A_macro_edge_boundary_value s).

(** The four flux caches have one entry per edge, as the constructor sizes
    them. *)
Definition flux_sized (g : GraphStorage) (s : FlowUpwindEvaluator) : Prop :=
  List.length (d_Q_macro_edge_flux_l s) = num_edges g /\
  List.length (d_Q_macro_edge_flux_r s) = num_edges g /\
  List.length (d_A_macro_edge_flux_l s) = num_edges g /\
  List.length (d_A_macro_edge_flux_r s) = num_edges g.

(** Consistency of the arena: entities carry the id they are stored under,
    edge ids index the caches, and a vertex is an end point of each of its
    incident edges. *)
Record graph_consistent (g : GraphStorage) : Prop := {
  gc_vertex_id : forall i, v_id (get_vertex g i) = i;
  gc_edge_id : forall i, e_id (get_edge g i) = i;
  gc_incident : forall i e, e ∈ v_edge_neighbors (get_vertex g i) ->
                i = fst (e_vertex_neighbors (get_edge g e)) \/
                i = snd (e_vertex_neighbors (get_edge g e));
  gc_edge_range : forall i e, e ∈ v_edge_neighbors (get_vertex g i) -> e < num_edges g;
}.

(** The edge of a leaf vertex and the side of it the vertex sits on. *)
Definition leaf_edge (g : GraphStorage) (v : nat) : Edge :=
  get_edge g (nth 0 (v_edge_neighbors (get_vertex g v)) 0).

Definition leaf_in (g : GraphStorage) (v : nat) : bool :=
  is_pointing_to (leaf_edge g v) (v_id (get_vertex g v)).

(** *** Damped Newton iteration, in the words of the specification

    "damped Newton iteration (relaxation factor, tolerance, hard cap ...)",
    "starting from the measured boundary area A and stopping as soon as the
    residual magnitude is at most the tolerance". *)

Definition damped_step (relax : double) (f df : double -> double) (x : double) : double :=
  (x + relax * ((- f x) / df x))%float.

Fixpoint damped_iterate (relax : double) (f df : double -> double) (x0 : double) (k : nat)
  : double :=
  match k with
  | O => x0
  | S k' => damped_step relax f df (damped_iterate relax f df x0 k')
  end.

(** What the [while] loop of the code computes, its test coming after the
    step: [x] is the iterate of some step [k] between 1 and the cap (the
    first step is always taken, the residual at [x0] is never examined); the
    residual was above the tolerance after every earlier step; no earlier step
    had reached a residual within the tolerance; and the loop left at [k]
    because of the cap or because the residual was no longer above the
    tolerance. *)
Definition damped_newton_outcome (relax tol : double) (cap : nat)
    (f df : double -> double) (x0 x : double) : Prop :=
  exists k : nat,
    1 <= k <= cap /\
    x = damped_iterate relax f df x0 k /\
    (forall j, 1 <= j < k ->
       (tol <? PrimFloat.abs (f (damped_iterate relax f df x0 j)))%float = true) /\
    (forall j, 1 <= j ->
       (PrimFloat.abs (f (damped_iterate relax f df x0 j)) <=? tol)%float = true -> k <= j) /\
    (k = cap \/ (tol <? PrimFloat.abs (f x))%float = false).

(** The iteration in the words of the specification, "starting from [x0] and
    stopping as soon as the residual magnitude is at most the tolerance", with
    a cap on the number of steps: [x] is the iterate of some step [k] from 0
    to the cap, no iterate before it had a residual within the tolerance, and
    at [k] the cap is reached or the residual is within the tolerance. *)
Definition stops_as_soon_as_within (relax tol : double) (cap : nat)
    (f df : double -> double) (x0 x : double) : Prop :=
  exists k : nat,
    k <= cap /\
    x = damped_iterate relax f df x0 k /\
    (forall j, j < k ->
       (PrimFloat.abs (f (damped_iterate relax f df x0 j)) <=? tol)%float = false) /\
    (k = cap \/ (PrimFloat.abs (f x) <=? tol)%float = true).

(** The residual of the Windkessel condition, in the words of the
    specification: W - (p(A_out) - p_c) / (A_out R1) - 4 c0 (A_out/A0)^(1/4),
    with p(A) = G0 (sqrt(A/A0) - 1), c0 = (G0/(2 rho))^(1/2), R1 = rho c0 / A0.
    Powers are taken with the C library's [pow], handed in as [pow]. *)
Definition spec_c0 (pow : double -> double -> double) (G0 rho : double) : double :=
  pow (G0 / (2 * rho))%float 0.5%float.

Definition spec_R1 (pow : double -> double -> double) (G0 rho A0 : double) : double :=
  (rho * spec_c0 pow G0 rho / A0)%float.

Definition spec_p (G0 A0 A : double) : double :=
  (G0 * (PrimFloat.sqrt (A / A0) - 1))%float.

Definition spec_residual (pow : double -> double -> double) (G0 rho A0 W p_c A_out : double)
  : double :=
  (W - (spec_p G0 A0 A_out - p_c) / (A_out * spec_R1 pow G0 rho A0)
   - 4 * spec_c0 pow G0 rho * pow (A_out / A0) 0.25)%float.

Definition spec_Q_out (pow : double -> double -> double) (G0 rho A0 p_c : double)
    (points_to : bool) (A_out : double) : double :=
  ((if points_to then 1 else -1) * (spec_p G0 A0 A_out - p_c) / spec_R1 pow G0 rho A0)%float.

(** The resolution passes leave the boundary values, the time stamp and the
    sizes of the caches alone. *)
Definition same_frame (w w' : World) : Prop :=
  boundary_values (self w') = boundary_values (self w) /\
  d_current_t (self w') = d_current_t (self w) /\
  List.length (d_Q_macro_edge_flux_l (self w')) = List.length (d_Q_macro_edge_flux_l (self w)) /\
  List.length (d_Q_macro_edge_flux_r (self w')) = List.length (d_Q_macro_edge_flux_r (self w)) /\
  List.length (d_A_macro_edge_flux_l (self w')) = List.length (d_A_macro_edge_flux_l (self w)) /\
  List.length (d_A_macro_edge_flux_r (self w')) = List.length (d_A_macro_edge_flux_r (self w)).

(** Boundary-value extraction touches neither the time stamp nor the flux
    caches nor [std::cerr]. *)
Definition same_caches (w w' : World) : Prop :=
  d_current_t (self w') = d_current_t (self w) /\
  d_Q_macro_edge_flux_l (self w') = d_Q_macro_edge_flux_l (self w) /\
  d_Q_macro_edge_flux_r (self w') = d_Q_macro_edge_flux_r (self w) /\
  d_A_macro_edge_flux_l (self w') = d_A_macro_edge_flux_l (self w) /\
  d_A_macro_edge_flux_r (self w') = d_A_macro_edge_flux_r (self w) /\
  cerr w' = cerr w.

(** The state of the loop after [i >= 1] executions of its body from [A]. *)
Definition newton_state_at (f df : double -> double) (A : double) (i : nat) (s : NewtonState)
  : Prop :=
  ns_A_out s = damped_iterate omega f df A i /\
  ns_error s = PrimFloat.abs (f (damped_iterate omega f df A i)) /\
  ns_num_iter s = Z.of_nat i /\
  ns_cerr s = (if (Z.of_nat i =? max_iter)%Z then [newton_warning] else []).

(** ** A small network to run the evaluator on

    Three vessels meeting in a bifurcation: vertex 0 (prescribed inflow) is the
    left end of edge 0, vertex 1 joins the three edges, vertex 2 (free outflow)
    is the right end of edge 1 and vertex 3 (Windkessel outflow) the right end
    of edge 2. Every vessel has G0 = 2, rho = 1, A0 = 1, two micro-edges and
    piecewise constant unknowns. *)
Module Sample.

(** A stand-in for [std::pow] on the three exponents the evaluator passes;
    [pow(1, y)] is 1 for every [y], as the C standard requires. *)
Definition pow (x y : double) : double :=
  if (x =? 1)%float then 1%float
  else if (y =? 0.5)%float then PrimFloat.sqrt x
  else if (y =? 0.25)%float then PrimFloat.sqrt (PrimFloat.sqrt x)
  else if (y =? -0.75)%float then (1 / (PrimFloat.sqrt x * PrimFloat.sqrt (PrimFloat.sqrt x)))%float
  else nan.

(** The characteristic variables -Q/A + 4 c0 (A/A0)^(1/4) and
    Q/A + 4 c0 (A/A0)^(1/4), and their closed-form inverse. *)
Definition calculate_W1_value (Q A G0 rho A0 : double) : double :=
  (- Q / A + 4 * pow (G0 / (2 * rho)) 0.5 * pow (A / A0) 0.25)%float.

Definition calculate_W2_value (Q A G0 rho A0 : double) : double :=
  (Q / A + 4 * pow (G0 / (2 * rho)) 0.5 * pow (A / A0) 0.25)%float.

Definition solve_W12 (W1 W2 G0 rho A0 : double) : double * double :=
  let r := ((W1 + W2) / (8 * pow (G0 / (2 * rho)) 0.5))%float in
  let A := (A0 * ((r * r) * (r * r)))%float in
  ((A * (W2 - W1) / 2)%float, A).

(** An inflow assembly that keeps the measured area. *)
Definition assemble_in_flow (Q A : double) (in_ : bool) (Q_star G0 rho A0 : double) : double := A.

(** A junction solver that hands the measured values back. *)
Definition solve_at_nfurcation (Q_e A_e : list double) (p_e : list VesselParameters)
    (e_in : list bool) (up : list double * list double) : list double * list double :=
  (Q_e, A_e).

(** One worker: the ghost exchange changes nothing. *)
Definition update_ghost_layer (v : list double) : list double := v.

(** Piecewise constants: every point value is the single coefficient. *)
Definition evaluate_dof_at_boundary_points (degree : nat) (h : double) (dofs : list double)
  : double * double := (vec_get dofs 0, vec_get dofs 0).

Definition evaluate_dof_at_quadrature_points (degree : nat) (h : double) (dofs : list double)
  : list double := [vec_get dofs 0; vec_get dofs 0].

Definition extract_dof (dof_indices : list nat) (u : list double) : list double :=
  map (vec_get u) dof_indices.

Definition data : PhysicalData :=
  {| G0 := 2%float; A0 := 1%float; rho := 1%float; length := 1%float |}.

Definition waveform (t : double) : double := (1 + t)%float.

Definition graph : GraphStorage :=
  {| get_vertex := fun i =>
       match i with
       | 0 => {| v_id := 0; v_edge_neighbors := [0]; v_flow_type := InflowPrescribed waveform |}
       | 1 => {| v_id := 1; v_edge_neighbors := [0; 1; 2]; v_flow_type := Inner |}
       | 2 => {| v_id := 2; v_edge_neighbors := [1]; v_flow_type := FreeOutflow |}
       | 3 => {| v_id := 3; v_edge_neighbors := [2]; v_flow_type := WindkesselOutflow |}
       | _ => {| v_id := i; v_edge_neighbors := []; v_flow_type := Inner |}
       end;
     get_edge := fun i =>
       match i with
       | 0 => {| e_id := 0; e_vertex_neighbors := (0, 1); e_physical_data := data |}
       | 1 => {| e_id := 1; e_vertex_neighbors := (1, 2); e_physical_data := data |}
       | 2 => {| e_id := 2; e_vertex_neighbors := (1, 3); e_physical_data := data |}
       | _ => {| e_id := i; e_vertex_neighbors := (i, i); e_physical_data := data |}
       end;
     num_edges := 3;
     get_active_vertex_ids := [0; 1; 2; 3];
     get_active_edge_ids := [0; 1; 2] |}.

Definition dof_map : DofMap :=
  {| get_local_dof_map := fun edge =>
       {| num_micro_edges := 2;
          num_basis_functions := 1;
          edge_dof_indices := fun micro_edge component =>
            [4 * e_id edge + 2 * micro_edge + component] |};
     get_local_dof_map_vertex := fun vertex =>
       match v_flow_type vertex with
       | WindkesselOutflow => {| num_local_dof := 1; vertex_dof_indices := [12] |}
       | _ => {| num_local_dof := 0; vertex_dof_indices := [] |}
       end |}.

(** The network at rest, Q = 0 and A = A0 on every micro-edge, with capillary
    pressure [p_c] at the Windkessel vertex. *)
Definition at_rest (p_c : double) : list double :=
  [0; 1; 0; 1;  0; 1; 0; 1;  0; 1; 0; 1;  p_c]%float.

(** A flowing state: Q = 0.5 and A = 1.25 on the first micro-edge of
    edge 1. *)
Definition flowing : list double :=
  [0; 1; 0; 1;  0.5; 1.25; 0; 1;  0; 1; 0; 1;  0]%float.

Definition fresh : World :=
  {| self := FlowUpwindEvaluator_new graph; cerr := [] |}.

Definition init (t : double) (u_prev : list double) : M unit :=
  init pow calculate_W1_value calculate_W2_value solve_W12 assemble_in_flow
    solve_at_nfurcation update_ghost_layer evaluate_dof_at_boundary_points extract_dof
    graph dof_map t u_prev.

(** The world after [init(t, u_prev)] on a fresh evaluator. *)
Definition after_init (t : double) (u_prev : list double) : World :=
  snd (init t u_prev fresh).

Definition get_fluxes_on_macro_edge (t : double) (edge : Edge) (u_prev : list double)
    (Q_up A_up : list double) : M (list double * list double) :=
  get_fluxes_on_macro_edge calculate_W1_value calculate_W2_value solve_W12
    evaluate_dof_at_quadrature_points extract_dof dof_map t edge u_prev Q_up A_up.

End Sample.

(** ** Vocabulary of the further properties *)

(** A vertex the leaf pass of [init] has a branch for: not a leaf, or a leaf
    that is a prescribed inflow, a free outflow or a Windkessel outflow. *)
Definition leaf_kind_known (vertex : Vertex) : bool :=
  negb (is_leaf vertex) ||
  is_inflow vertex || is_free_outflow vertex || is_windkessel_outflow vertex.

(** The call of the junction solver for the vertex [v], on the boundary
    values held by the evaluator [s]. *)
Definition junction_solution
    (solve_at_nfurcation :
       list double -> list double -> list VesselParameters -> list bool ->
       list double * list double -> list double * list double)
    (g : GraphStorage) (s : FlowUpwindEvaluator) (v : nat) : list double * list double :=
  let vertex := get_vertex g v in
  let num_vessels := List.length (v_edge_neighbors vertex) in
  let e := map (get_edge g) (v_edge_neighbors vertex) in
  let e_in := map (fun edge => is_pointing_to edge (v_id vertex)) e in
  let p_e := map (fun edge =>
                    let data_e := e_physical_data edge in
                    {| vp_G0 := G0 data_e; vp_A0 := A0 data_e; vp_rho := rho data_e |}) e in
  let Q_e := map (fun edge =>
                    vec_get (d_Q_macro_edge_boundary_value s)
                      (boundary_slot (is_pointing_to edge (v_id vertex)) (e_id edge))) e in
  let A_e := map (fun edge =>
                    vec_get (d_A_macro_edge_boundary_value s)
                      (boundary_slot (is_pointing_to edge (v_id vertex)) (e_id edge))) e in
  solve_at_nfurcation Q_e A_e p_e e_in
    (replicate num_vessels 0%float, replicate num_vessels 0%float).

Section Lifecycle.

Variable pow : double -> double -> double.
Variable calculate_W1_value : double -> double -> double -> double -> double -> double.
Variable calculate_W2_value : double -> double -> double -> double -> double -> double.
Variable solve_W12 : double -> double -> double -> double -> double -> double * double.
Variable assemble_in_flow :
  double -> double -> bool -> double -> double -> double -> double -> double.
Variable solve_at_nfurcation :
  list double -> list double -> list VesselParameters -> list bool ->
  list double * list double -> list double * list double.
Variable update_ghost_layer : list double -> list double.
Variable evaluate_dof_at_boundary_points : nat -> double -> list double -> double * double.
Variable evaluate_dof_at_quadrature_points : nat -> double -> list double -> list double.
Variable extract_dof : list nat -> list double -> list double.
Variable d_graph : GraphStorage.
Variable d_dof_map : DofMap.

(** The entry of the vectors returned by [get_fluxes_on_macro_edge] at
    micro-vertex [i]: the right cache at the last micro-vertex, the left cache
    at the first one, the upwinded pair in between. *)
Definition macro_edge_entry (s : FlowUpwindEvaluator) (edge : Edge) (u_prev : list double)
    (i : nat) : double * double :=
  if Nat.eqb i (num_micro_vertices (get_local_dof_map d_dof_map edge) - 1)
  then cached_flux s true (e_id edge)
  else if Nat.eqb i 0 then cached_flux s false (e_id edge)
  else micro_vertex_upwind calculate_W1_value calculate_W2_value solve_W12
         evaluate_dof_at_quadrature_points extract_dof d_dof_map edge u_prev i.

(** The states an evaluator can be in: constructed, then any sequence of
    calls of its three public member functions, whatever their outcome (an
    exception leaves the object as it was when it was thrown). *)
Inductive reachable : World -> Prop :=
| reachable_new (log : list string) :
    reachable {| self := FlowUpwindEvaluator_new d_graph; cerr := log |}
| reachable_init (t : double) (u_prev : list double) (w : World) :
    reachable w ->
    reachable (snd (init pow calculate_W1_value calculate_W2_value solve_W12 assemble_in_flow
                      solve_at_nfurcation update_ghost_layer evaluate_dof_at_boundary_points
                      extract_dof d_graph d_dof_map t u_prev w))
| reachable_macro_edge (t : double) (edge : Edge) (u_prev Q_up A_up : list double) (w : World) :
    reachable w ->
    reachable (snd (get_fluxes_on_macro_edge calculate_W1_value calculate_W2_value solve_W12
                      evaluate_dof_at_quadrature_points extract_dof d_dof_map
                      t edge u_prev Q_up A_up w))
| reachable_nfurcation (t : double) (v : Vertex) (Q_up A_up : list double) (w : World) :
    reachable w ->
    reachable (snd (get_fluxes_on_nfurcation d_graph t v Q_up A_up w)).

End Lifecycle.

(** ** The small network as one of two workers sees it

    The network of [Sample], on the worker that owns vertices 0 and 1 and
    edges 0 and 1: the outflow vertices 2 and 3 and edge 2 belong to the
    other worker. *)
Module Worker.

Definition graph : GraphStorage :=
  {| get_vertex := get_vertex Sample.graph;
     get_edge := get_edge Sample.graph;
     num_edges := 3;
     get_active_vertex_ids := [0; 1];
     get_active_edge_ids := [0; 1] |}.

(** An evaluator that has been used before: every buffer holds values of an
    earlier time step. *)
Definition used : World :=
  {| self :=
       {| d_Q_macro_edge_boundary_value := [0.5; 0.5; 0.25; 0.25; 0.125; 0.125]%float;
          d_A_macro_edge_boundary_value := [1.5; 1.5; 1.25; 1.25; 1.125; 1.125]%float;
          d_Q_macro_edge_flux_l := [0.5; 0.25; 0.125]%float;
          d_Q_macro_edge_flux_r := [0.5; 0.25; 0.125]%float;
          d_A_macro_edge_flux_l := [1.5; 1.25; 1.125]%float;
          d_A_macro_edge_flux_r := [1.5; 1.25; 1.125]%float;
          d_current_t := 0.25%float |};
     cerr := [] |}.

Definition init (t : double) (u_prev : list double) : M unit :=
  init Sample.pow Sample.calculate_W1_value Sample.calculate_W2_value Sample.solve_W12
    Sample.assemble_in_flow Sample.solve_at_nfurcation Sample.update_ghost_layer
    Sample.evaluate_dof_at_boundary_points Sample.extract_dof graph Sample.dof_map t u_prev.

End Worker.

(** * Properties *)

(** ** Comparisons of doubles *)

Lemma nan_eqb_l (t : double) : (nan =? t)%float = false.
Proof. rewrite FloatAxioms.eqb_spec. reflexivity. Qed.

Lemma double_ne_nan_l (t : double) : double_ne nan t = true.
Proof. unfold double_ne. now rewrite nan_eqb_l. Qed.

Lemma SFcompare_swap (x y : spec_float) :
  SFcompare y x = option_map CompOpp (SFcompare x y).
Proof.
  destruct x as [sx|sx| |sx mx ex], y as [sy|sy| |sy my ey]; simpl;
    try reflexivity; try (destruct sx; reflexivity); try (destruct sy; reflexivity);
    try (destruct sx, sy; reflexivity).
  pose proof (Pos.compare_cont_antisym mx my Eq) as Hm. simpl in Hm.
  destruct sx, sy; try reflexivity; f_equal;
    rewrite (Z.compare_antisym ex ey); destruct (ex ?= ey)%Z; simpl; try reflexivity;
    rewrite <- Hm; try reflexivity.
Qed.

(** [x <= y] excludes [y < x]: a residual within the tolerance stops the
    loop. *)
Lemma leb_ltb_false (x y : double) :
  (x <=? y)%float = true -> (y <? x)%float = false.
Proof.
  rewrite FloatAxioms.leb_spec, FloatAxioms.ltb_spec. unfold SFleb, SFltb.
  rewrite (SFcompare_swap (Prim2SF x) (Prim2SF y)).
  destruct (SFcompare (Prim2SF x) (Prim2SF y)) as [[]|]; simpl; congruence.
Qed.

(** ** The Newton loop *)

Section NewtonLoop.

Variables f df : double -> double.

Lemma newton_body_A_out (s : NewtonState) :
  ns_A_out (newton_body f df s) = damped_step omega f df (ns_A_out s).
Proof. reflexivity. Qed.

Lemma newton_body_error (s : NewtonState) :
  ns_error (newton_body f df s) = PrimFloat.abs (f (ns_A_out (newton_body f df s))).
Proof. reflexivity. Qed.

Lemma newton_body_num_iter (s : NewtonState) :
  ns_num_iter (newton_body f df s) = (ns_num_iter s + 1)%Z.
Proof. reflexivity. Qed.

Lemma newton_continue_true (s : NewtonState) :
  newton_continue s = true ->
  (ns_num_iter s < max_iter)%Z /\ (TOL <? ns_error s)%float = true.
Proof.
  unfold newton_continue. intros [H1 H2]%andb_prop. split; [lia | exact H2].
Qed.

Lemma newton_continue_false (s : NewtonState) :
  newton_continue s = false ->
  (max_iter <= ns_num_iter s)%Z \/ (TOL <? ns_error s)%float = false.
Proof.
  unfold newton_continue. intros [H|H]%andb_false_iff; [left; lia | right; exact H].
Qed.

(** Enough fuel: the loop leaves because its condition fails. *)
Lemma newton_loop_exits (fuel : nat) (s : NewtonState) :
  (max_iter - ns_num_iter s <= Z.of_nat fuel)%Z ->
  newton_continue (newton_loop fuel f df s) = false.
Proof.
  revert s. induction fuel as [|fuel IH]; intros s Hfuel; simpl.
  - unfold newton_continue. destruct (ns_num_iter s <? max_iter)%Z eqn:E; [lia | reflexivity].
  - destruct (newton_continue s) eqn:E; [|exact E].
    apply IH. rewrite newton_body_num_iter. lia.
Qed.

(** More fuel than the cap changes nothing. *)
Lemma newton_loop_fuel (fuel extra : nat) (s : NewtonState) :
  (max_iter - ns_num_iter s <= Z.of_nat fuel)%Z ->
  newton_loop (fuel + extra) f df s = newton_loop fuel f df s.
Proof.
  revert s. induction fuel as [|fuel IH]; intros s Hfuel; simpl.
  - destruct extra as [|extra]; [reflexivity|]. simpl.
    unfold newton_continue. destruct (ns_num_iter s <? max_iter)%Z eqn:E; [lia | reflexivity].
  - destruct (newton_continue s) eqn:E; [|reflexivity].
    apply IH. rewrite newton_body_num_iter. lia.
Qed.

Lemma newton_loop_from (A : double) (fuel i : nat) (s : NewtonState) :
  1 <= i -> i + fuel = 250 ->
  newton_state_at f df A i s ->
  (forall j, 1 <= j < i ->
     (TOL <? PrimFloat.abs (f (damped_iterate omega f df A j)))%float = true) ->
  exists k, i <= k <= 250 /\
    newton_state_at f df A k (newton_loop fuel f df s) /\
    (forall j, 1 <= j < k ->
       (TOL <? PrimFloat.abs (f (damped_iterate omega f df A j)))%float = true) /\
    (k = 250 \/
     (TOL <? PrimFloat.abs (f (damped_iterate omega f df A k)))%float = false).
Proof.
  assert (max_iter = 250%Z) as Hcap by reflexivity.
  revert i s. induction fuel as [|fuel IH]; intros i s Hi Hsum Hs Hbefore; simpl.
  - exists i. split; [lia|]. split; [exact Hs|]. split; [exact Hbefore|]. left; lia.
  - destruct (newton_continue s) eqn:E.
    + apply newton_continue_true in E as [Hlt Herr].
      destruct Hs as (HA & He & Hn & Hc).
      destruct (IH (S i) (newton_body f df s)) as (k & Hk & Hst & Hb & Hstop).
      * lia.
      * lia.
      * unfold newton_state_at.
        rewrite newton_body_error, newton_body_A_out, newton_body_num_iter, HA.
        repeat split; try reflexivity; [lia|].
        unfold newton_body; cbn [ns_cerr]. rewrite Hn, Hc.
        replace (Z.of_nat i + 1)%Z with (Z.of_nat (S i)) by lia.
        destruct (Z.of_nat i =? max_iter)%Z eqn:Ei; [lia|].
        now destruct (Z.of_nat (S i) =? max_iter)%Z.
      * intros j Hj. destruct (decide (j = i)) as [->|Hne].
        -- rewrite <- He. exact Herr.
        -- apply Hbefore. lia.
      * exists k. split; [lia|]. split; [exact Hst|]. split; assumption.
    + exists i. split; [lia|]. split; [exact Hs|]. split; [exact Hbefore|].
      destruct Hs as (HA & He & Hn & Hc).
      apply newton_continue_false in E as [E|E]; [left; lia | right; now rewrite <- He].
Qed.

(** The whole loop, from [error = INFINITY] and [num_iter = 0]. *)
Lemma newton_loop_run (A : double) :
  exists k, 1 <= k <= 250 /\
    newton_state_at f df A k (newton_loop (250) f df (newton_init A)) /\
    (forall j, 1 <= j < k ->
       (TOL <? PrimFloat.abs (f (damped_iterate omega f df A j)))%float = true) /\
    (k = 250 \/
     (TOL <? PrimFloat.abs (f (damped_iterate omega f df A k)))%float = false).
Proof.
  change 250 with (S 249) at 2. cbn [newton_loop].
  change (newton_continue (newton_init A)) with true. cbv iota.
  apply (newton_loop_from A 249 1); [lia | reflexivity | | intros j Hj; lia].
  repeat split.
Qed.

(** The loop of the evaluator leaves because its own condition fails, not
    because the fuel of the model runs out. *)
Lemma newton_run_exits (A : double) :
  newton_continue (newton_loop 250 f df (newton_init A)) = false.
Proof. apply newton_loop_exits. unfold max_iter. simpl. lia. Qed.

End NewtonLoop.

(** ** The monad and its loops *)

Lemma for_each_cons {A} (x : A) (l : list A) (body : A -> M unit) (w : World) :
  for_each (x :: l) body w =
  match body x w with
  | (Ok _, w') => for_each l body w'
  | (Throw what, w') => (Throw what, w')
  | (AssertionFailed, w') => (AssertionFailed, w')
  end.
Proof. reflexivity. Qed.

(** A relation between worlds that every body respects holds between the
    start and the end of the loop, whatever its outcome. *)
Lemma for_each_rel {A} (R : World -> World -> Prop) (body : A -> M unit) (l : list A) :
  (forall w, R w w) ->
  (forall w1 w2 w3, R w1 w2 -> R w2 w3 -> R w1 w3) ->
  (forall x w, R w (snd (body x w))) ->
  forall w, R w (snd (for_each l body w)).
Proof.
  intros Hrefl Htrans Hbody. induction l as [|x l IH]; intros w.
  - apply Hrefl.
  - rewrite for_each_cons. specialize (Hbody x w).
    destruct (body x w) as [[[]| |] w1]; simpl in *; try exact Hbody.
    eapply Htrans; [exact Hbody | apply IH].
Qed.

(** ... and between the start of the loop and the start of every body. *)
Lemma entry_worlds_rel {A} (R : World -> World -> Prop) (body : A -> M unit) (l : list A) :
  (forall w, R w w) ->
  (forall w1 w2 w3, R w1 w2 -> R w2 w3 -> R w1 w3) ->
  (forall x w, R w (snd (body x w))) ->
  forall w w', w' ∈ entry_worlds l body w -> R w w'.
Proof.
  intros Hrefl Htrans Hbody. induction l as [|x l IH]; intros w w' Hin; simpl in Hin.
  - now apply elem_of_nil in Hin.
  - apply elem_of_cons in Hin as [->|Hin]; [apply Hrefl|].
    specialize (Hbody x w).
    destruct (body x w) as [[[]| |] w1]; simpl in *;
      try (now apply elem_of_nil in Hin).
    eapply Htrans; [exact Hbody | now apply IH].
Qed.

Lemma same_frame_refl (w : World) : same_frame w w.
Proof. repeat split. Qed.

Lemma same_frame_trans (w1 w2 w3 : World) :
  same_frame w1 w2 -> same_frame w2 w3 -> same_frame w1 w3.
Proof.
  unfold same_frame. intros (a & b & c & d & e & f) (a' & b' & c' & d' & e' & f').
  repeat split; congruence.
Qed.

Lemma set_flux_frame (in_ : bool) (id : nat) (Q A : double) (w : World) :
  fst (set_flux in_ id Q A w) = Ok tt /\ same_frame w (snd (set_flux in_ id Q A w)).
Proof.
  destruct in_; simpl; (split; [reflexivity|]);
    unfold same_frame; simpl; unfold vec_set; rewrite !length_insert; repeat split.
Qed.

Lemma set_flux_cached (in_ : bool) (id : nat) (Q A : double) (w : World) :
  id < List.length (d_Q_macro_edge_flux_l (self w)) ->
  id < List.length (d_Q_macro_edge_flux_r (self w)) ->
  id < List.length (d_A_macro_edge_flux_l (self w)) ->
  id < List.length (d_A_macro_edge_flux_r (self w)) ->
  cached_flux (self (snd (set_flux in_ id Q A w))) in_ id = (Q, A).
Proof.
  intros H1 H2 H3 H4. destruct in_; simpl; unfold vec_get, vec_set;
    rewrite !list_lookup_insert_eq by assumption; reflexivity.
Qed.

(** A store at another slot leaves the cached pair alone. *)
Lemma set_flux_other (in_ in' : bool) (id id' : nat) (Q A : double) (w : World) :
  (in', id') <> (in_, id) ->
  cached_flux (self (snd (set_flux in' id' Q A w))) in_ id = cached_flux (self w) in_ id.
Proof.
  intros Hne. destruct in', in_; simpl; try reflexivity;
    unfold vec_get, vec_set; rewrite !list_lookup_insert_ne; try reflexivity; congruence.
Qed.

(** ** The evaluator *)

Lemma newton_outcome (f df : double -> double) (A : double) :
  damped_newton_outcome omega TOL (250) f df A
    (ns_A_out (newton_loop (250) f df (newton_init A))).
Proof.
  destruct (newton_loop_run f df A) as (k & Hk & (HA & He & Hn & Hc) & Hbefore & Hstop).
  exists k. split; [exact Hk|]. split; [exact HA|]. split; [exact Hbefore|]. split.
  - intros j Hj Hle. destruct (decide (k <= j)) as [|Hlt]; [assumption|].
    apply leb_ltb_false in Hle. rewrite Hbefore in Hle by lia. discriminate.
  - rewrite HA. exact Hstop.
Qed.

(** The warning is written exactly when the loop performs its 250th
    iteration, whatever the residual then is. *)
Lemma newton_warning_iff_cap (f df : double -> double) (A : double) :
  let s := newton_loop (250) f df (newton_init A) in
  ns_cerr s = if (ns_num_iter s =? max_iter)%Z then [newton_warning] else [].
Proof.
  destruct (newton_loop_run f df A) as (k & Hk & (HA & He & Hn & Hc) & _).
  cbv zeta. now rewrite Hn, Hc.
Qed.

Section EvaluatorFacts.

Context (pow : double -> double -> double)
        (calculate_W1_value calculate_W2_value :
           double -> double -> double -> double -> double -> double)
        (solve_W12 : double -> double -> double -> double -> double -> double * double)
        (assemble_in_flow :
           double -> double -> bool -> double -> double -> double -> double -> double)
        (solve_at_nfurcation :
           list double -> list double -> list VesselParameters -> list bool ->
           list double * list double -> list double * list double)
        (update_ghost_layer : list double -> list double)
        (evaluate_dof_at_boundary_points : nat -> double -> list double -> double * double)
        (evaluate_dof_at_quadrature_points : nat -> double -> list double -> list double)
        (extract_dof : list nat -> list double -> list double)
        (d_graph : GraphStorage) (d_dof_map : DofMap).

Local Abbreviation inout_vertex :=
  (inout_vertex pow calculate_W1_value calculate_W2_value solve_W12 assemble_in_flow
     d_graph d_dof_map).
Local Abbreviation calculate_inout_fluxes :=
  (calculate_inout_fluxes pow calculate_W1_value calculate_W2_value solve_W12
     assemble_in_flow d_graph d_dof_map).
Local Abbreviation nfurcation_vertex := (nfurcation_vertex solve_at_nfurcation d_graph).
Local Abbreviation calculate_nfurcation_fluxes :=
  (calculate_nfurcation_fluxes solve_at_nfurcation d_graph).
Local Abbreviation evaluate_edge_boundary_values :=
  (evaluate_edge_boundary_values evaluate_dof_at_boundary_points extract_dof d_graph d_dof_map).
Local Abbreviation evaluate_macro_edge_boundary_values :=
  (evaluate_macro_edge_boundary_values evaluate_dof_at_boundary_points extract_dof
     d_graph d_dof_map).
Local Abbreviation get_fluxes_on_macro_edge :=
  (get_fluxes_on_macro_edge calculate_W1_value calculate_W2_value solve_W12
     evaluate_dof_at_quadrature_points extract_dof d_dof_map).
Local Abbreviation get_fluxes_on_nfurcation := (get_fluxes_on_nfurcation d_graph).
Local Abbreviation micro_vertex_upwind :=
  (micro_vertex_upwind calculate_W1_value calculate_W2_value solve_W12
     evaluate_dof_at_quadrature_points extract_dof d_dof_map).
Local Abbreviation upwind_interior :=
  (upwind_interior calculate_W1_value calculate_W2_value solve_W12
     evaluate_dof_at_quadrature_points extract_dof d_dof_map).
Local Abbreviation after_exchange :=
  (after_exchange update_ghost_layer evaluate_dof_at_boundary_points extract_dof
     d_graph d_dof_map).
Local Abbreviation init :=
  (init pow calculate_W1_value calculate_W2_value solve_W12 assemble_in_flow
     solve_at_nfurcation update_ghost_layer evaluate_dof_at_boundary_points extract_dof
     d_graph d_dof_map).

Lemma same_frame_self (w1 w1' w2 : World) :
  self w1 = self w1' -> same_frame w1 w2 -> same_frame w1' w2.
Proof. unfold same_frame. now intros ->. Qed.

Lemma inout_vertex_frame (t : double) (u_prev : list double) (v : nat) (w : World) :
  same_frame w (snd (inout_vertex t u_prev v w)).
Proof.
  unfold inout_vertex.
  destruct (is_leaf _); [|apply same_frame_refl].
  unfold bind at 1 2, gets at 1 2. cbv beta iota.
  destruct (is_inflow _); [apply set_flux_frame|].
  destruct (is_free_outflow _); [apply set_flux_frame|].
  destruct (is_windkessel_outflow _); [|apply same_frame_refl].
  unfold bind, assert_. destruct (Nat.eqb _ 1); [|apply same_frame_refl].
  unfold print_cerr at 1. cbv beta iota.
  eapply same_frame_self; [|apply set_flux_frame]. reflexivity.
Qed.

Lemma nfurcation_vertex_frame (u_prev : list double) (v : nat) (w : World) :
  same_frame w (snd (nfurcation_vertex u_prev v w)).
Proof.
  unfold nfurcation_vertex.
  destruct (negb _); [apply same_frame_refl|].
  unfold bind at 1 2, gets at 1 2. cbv beta iota.
  apply for_each_rel; [apply same_frame_refl | apply same_frame_trans|].
  intros [edge idx] w0. apply set_flux_frame.
Qed.


Lemma calculate_nfurcation_fluxes_frame (u_prev : list double) (w : World) :
  same_frame w (snd (calculate_nfurcation_fluxes u_prev w)).
Proof.
  unfold calculate_nfurcation_fluxes.
  apply for_each_rel; [apply same_frame_refl | apply same_frame_trans|].
  intros x w0. apply nfurcation_vertex_frame.
Qed.

Lemma calculate_inout_fluxes_frame (t : double) (u_prev : list double) (w : World) :
  same_frame w (snd (calculate_inout_fluxes t u_prev w)).
Proof.
  unfold calculate_inout_fluxes.
  apply for_each_rel; [apply same_frame_refl | apply same_frame_trans|].
  intros x w0. apply inout_vertex_frame.
Qed.

(** The junction pass cannot fail. *)
Lemma for_each_ok {A} (l : list A) (body : A -> M unit) :
  (forall x w, fst (body x w) = Ok tt) -> forall w, fst (for_each l body w) = Ok tt.
Proof.
  intros Hbody. induction l as [|x l IH]; intros w; [reflexivity|].
  rewrite for_each_cons. specialize (Hbody x w).
  destruct (body x w) as [[[]| |] w1]; simpl in Hbody; try discriminate. apply IH.
Qed.

Lemma nfurcation_vertex_ok (u_prev : list double) (v : nat) (w : World) :
  fst (nfurcation_vertex u_prev v w) = Ok tt.
Proof.
  unfold nfurcation_vertex.
  destruct (negb _); [reflexivity|].
  unfold bind at 1 2, gets at 1 2. cbv beta iota.
  apply for_each_ok. intros [edge idx] w0. apply set_flux_frame.
Qed.

Lemma calculate_nfurcation_fluxes_ok (u_prev : list double) (w : World) :
  fst (calculate_nfurcation_fluxes u_prev w) = Ok tt.
Proof.
  unfold calculate_nfurcation_fluxes.
  apply for_each_ok. intros x w0. apply nfurcation_vertex_ok.
Qed.

Lemma same_caches_refl (w : World) : same_caches w w.
Proof. repeat split. Qed.

Lemma same_caches_trans (w1 w2 w3 : World) :
  same_caches w1 w2 -> same_caches w2 w3 -> same_caches w1 w3.
Proof.
  unfold same_caches. intros (a & b & c & d & e & f) (a' & b' & c' & d' & e' & f').
  repeat split; congruence.
Qed.

Lemma evaluate_edge_boundary_values_ok (u_prev : list double) (e : nat) (w : World) :
  fst (evaluate_edge_boundary_values u_prev e w) = Ok tt /\
  same_caches w (snd (evaluate_edge_boundary_values u_prev e w)).
Proof. split; [reflexivity | repeat split]. Qed.

Lemma evaluate_macro_edge_boundary_values_ok (u_prev : list double) (w : World) :
  fst (evaluate_macro_edge_boundary_values u_prev w) = Ok tt.
Proof.
  unfold evaluate_macro_edge_boundary_values.
  apply for_each_ok. intros x w0. apply evaluate_edge_boundary_values_ok.
Qed.

Lemma evaluate_macro_edge_boundary_values_caches (u_prev : list double) (w : World) :
  same_caches w (snd (evaluate_macro_edge_boundary_values u_prev w)).
Proof.
  unfold evaluate_macro_edge_boundary_values.
  apply for_each_rel; [apply same_caches_refl | apply same_caches_trans|].
  intros x w0. apply evaluate_edge_boundary_values_ok.
Qed.

(** *** The phases of [init] *)

Lemma init_phases (t : double) (u_prev : list double) (w : World) :
  init t u_prev w =
  (calculate_nfurcation_fluxes u_prev ;; calculate_inout_fluxes t u_prev)
    (after_exchange t u_prev w).
Proof.
  unfold init, after_exchange.
  unfold bind at 1, modify at 1. cbv beta iota.
  unfold bind at 1.
  pose proof (evaluate_macro_edge_boundary_values_ok u_prev
                {| self := set_current_t t (self w); cerr := cerr w |}) as Hok.
  destruct (evaluate_macro_edge_boundary_values u_prev _) as [r w1].
  simpl in Hok. subst r. reflexivity.
Qed.

Lemma init_after_nfurcation (t : double) (u_prev : list double) (w : World) :
  init t u_prev w =
  calculate_inout_fluxes t u_prev
    (snd (calculate_nfurcation_fluxes u_prev (after_exchange t u_prev w))).
Proof.
  rewrite init_phases. unfold bind at 1.
  pose proof (calculate_nfurcation_fluxes_ok u_prev (after_exchange t u_prev w)) as Hok.
  destruct (calculate_nfurcation_fluxes u_prev _) as [r w1].
  simpl in Hok. subst r. reflexivity.
Qed.

Lemma after_exchange_current_t (t : double) (u_prev : list double) (w : World) :
  d_current_t (self (after_exchange t u_prev w)) = t.
Proof.
  unfold after_exchange. simpl.
  now destruct (evaluate_macro_edge_boundary_values_caches u_prev
              {| self := set_current_t t (self w); cerr := cerr w |}) as (-> & _).
Qed.

Lemma init_current_t (t : double) (u_prev : list double) (w : World) :
  d_current_t (self (snd (init t u_prev w))) = t.
Proof.
  rewrite init_after_nfurcation.
  destruct (calculate_inout_fluxes_frame t u_prev
              (snd (calculate_nfurcation_fluxes u_prev (after_exchange t u_prev w))))
    as (_ & -> & _).
  destruct (calculate_nfurcation_fluxes_frame u_prev (after_exchange t u_prev w))
    as (_ & -> & _).
  apply after_exchange_current_t.
Qed.


(** *** Leaf vertices and their slots *)

Lemma is_leaf_neighbors (v : Vertex) :
  is_leaf v = true -> v_edge_neighbors v = [nth 0 (v_edge_neighbors v) 0].
Proof.
  unfold is_leaf. destruct (v_edge_neighbors v) as [|e [|e' l]]; simpl; intros H;
    try discriminate. reflexivity.
Qed.

Section Consistent.

Hypothesis Hgraph : graph_consistent d_graph.

Lemma leaf_edge_id (v : nat) : e_id (leaf_edge d_graph v) = nth 0 (v_edge_neighbors (get_vertex d_graph v)) 0.
Proof. unfold leaf_edge. apply (gc_edge_id _ Hgraph). Qed.

Lemma leaf_edge_elem (v : nat) :
  is_leaf (get_vertex d_graph v) = true ->
  e_id (leaf_edge d_graph v) ∈ v_edge_neighbors (get_vertex d_graph v).
Proof.
  intros Hleaf. rewrite leaf_edge_id. rewrite (is_leaf_neighbors _ Hleaf) at 2.
  apply list_elem_of_here.
Qed.

Lemma leaf_edge_range (v : nat) :
  is_leaf (get_vertex d_graph v) = true ->
  e_id (leaf_edge d_graph v) < num_edges d_graph.
Proof.
  intros Hleaf. eapply (gc_edge_range _ Hgraph), leaf_edge_elem, Hleaf.
Qed.

(** Two leaves do not share a slot of the flux caches. *)
Lemma leaf_slot_injective (x v : nat) :
  is_leaf (get_vertex d_graph x) = true ->
  is_leaf (get_vertex d_graph v) = true ->
  (leaf_in d_graph x, e_id (leaf_edge d_graph x)) =
  (leaf_in d_graph v, e_id (leaf_edge d_graph v)) ->
  x = v.
Proof.
  intros Hx Hv [= Hin Hid].
  pose proof (leaf_edge_elem x Hx) as Ex. pose proof (leaf_edge_elem v Hv) as Ev.
  apply (gc_incident _ Hgraph) in Ex, Ev.
  unfold leaf_in, is_pointing_to in Hin.
  rewrite !(gc_vertex_id _ Hgraph) in Hin.
  assert (leaf_edge d_graph x = leaf_edge d_graph v) as He.
  { unfold leaf_edge. rewrite <- !leaf_edge_id. now rewrite Hid. }
  rewrite He in Hin. rewrite <- Hid in Ev.
  fold (leaf_edge d_graph x) in Ex. rewrite !leaf_edge_id in Ex, Ev.
  fold (leaf_edge d_graph x) in Ex, Ev. rewrite He in Ex, Ev.
  destruct (Nat.eqb_spec (snd (e_vertex_neighbors (leaf_edge d_graph v))) x) as [E1|E1];
    destruct (Nat.eqb_spec (snd (e_vertex_neighbors (leaf_edge d_graph v))) v) as [E2|E2];
    try discriminate; [congruence|].
  destruct Ex as [Ex|Ex], Ev as [Ev|Ev]; congruence.
Qed.


(** Resolving another vertex leaves the pair cached for a leaf alone. *)
Lemma inout_vertex_other (t : double) (u_prev : list double) (x v : nat) (w : World) :
  x <> v -> is_leaf (get_vertex d_graph v) = true ->
  cached_flux (self (snd (inout_vertex t u_prev x w)))
    (leaf_in d_graph v) (e_id (leaf_edge d_graph v)) =
  cached_flux (self w) (leaf_in d_graph v) (e_id (leaf_edge d_graph v)).
Proof.
  intros Hne Hv. unfold inout_vertex.
  destruct (is_leaf (get_vertex d_graph x)) eqn:Hx; [|reflexivity].
  assert ((leaf_in d_graph x, e_id (leaf_edge d_graph x)) <>
          (leaf_in d_graph v, e_id (leaf_edge d_graph v))) as Hslot.
  { intros E. now apply Hne, leaf_slot_injective. }
  unfold bind at 1 2, gets at 1 2. cbv beta iota.
  destruct (is_inflow _); [now apply set_flux_other|].
  destruct (is_free_outflow _); [now apply set_flux_other|].
  destruct (is_windkessel_outflow _); [|reflexivity].
  unfold bind, assert_. destruct (Nat.eqb _ 1); [|reflexivity].
  unfold print_cerr at 1. cbv beta iota.
  now rewrite set_flux_other.
Qed.

Lemma for_each_inout_other (t : double) (u_prev : list double) (v : nat) (l : list nat)
    (w : World) :
  v ∉ l -> is_leaf (get_vertex d_graph v) = true ->
  cached_flux (self (snd (for_each l (inout_vertex t u_prev) w)))
    (leaf_in d_graph v) (e_id (leaf_edge d_graph v)) =
  cached_flux (self w) (leaf_in d_graph v) (e_id (leaf_edge d_graph v)).
Proof.
  intros Hnotin Hv. revert w. induction l as [|x l IH]; intros w; [reflexivity|].
  apply not_elem_of_cons in Hnotin as [Hne Hnotin].
  rewrite for_each_cons.
  pose proof (inout_vertex_other t u_prev x v w (not_eq_sym Hne) Hv) as Hx.
  destruct (inout_vertex t u_prev x w) as [[[]| |] w1]; simpl in Hx; simpl;
    try exact Hx.
  rewrite IH by assumption. exact Hx.
Qed.

Lemma flux_sized_frame (w w' : World) :
  same_frame w w' -> flux_sized d_graph (self w) -> flux_sized d_graph (self w').
Proof.
  unfold same_frame, flux_sized.
  intros (_ & _ & a & b & c & d) (a' & b' & c' & d'). repeat split; congruence.
Qed.

(** If every successful resolution of the leaf [v] from a world with the
    given boundary values caches [val], the whole pass leaves [val] in the
    cache. *)
Lemma for_each_inout_cached (t : double) (u_prev : list double) (v : nat)
    (val : double * double) (bv : list double * list double) :
  is_leaf (get_vertex d_graph v) = true ->
  (forall w w', boundary_values (self w) = bv -> flux_sized d_graph (self w) ->
                inout_vertex t u_prev v w = (Ok tt, w') ->
                cached_flux (self w') (leaf_in d_graph v) (e_id (leaf_edge d_graph v)) = val) ->
  forall (l : list nat) (w w' : World),
    v ∈ l -> boundary_values (self w) = bv -> flux_sized d_graph (self w) ->
    for_each l (inout_vertex t u_prev) w = (Ok tt, w') ->
    cached_flux (self w') (leaf_in d_graph v) (e_id (leaf_edge d_graph v)) = val.
Proof.
  intros Hv Hval. induction l as [|x l IH]; intros w w' Hin Hbv Hsz Hrun.
  - now apply elem_of_nil in Hin.
  - rewrite for_each_cons in Hrun.
    pose proof (inout_vertex_frame t u_prev x w) as Hframe.
    destruct (inout_vertex t u_prev x w) as [[[]| |] w1] eqn:Hx; try discriminate.
    simpl in Hframe.
    destruct (decide (v ∈ l)) as [Hl|Hl].
    + apply (IH w1 w' Hl); [|now apply (flux_sized_frame w)|exact Hrun].
      destruct Hframe as (-> & _). exact Hbv.
    + apply elem_of_cons in Hin as [->|Hin]; [|contradiction].
      pose proof (for_each_inout_other t u_prev x l w1 Hl Hv) as Hother.
      rewrite Hrun in Hother. simpl in Hother. rewrite Hother.
      now apply (Hval w).
Qed.

(** The same for a whole [init]: the boundary values the leaf resolution
    reads are those of the final state. *)
Lemma init_leaf_cached (t : double) (u_prev : list double) (v : nat)
    (val : double * double) (w w' : World) :
  flux_sized d_graph (self w) ->
  v ∈ get_active_vertex_ids d_graph ->
  is_leaf (get_vertex d_graph v) = true ->
  init t u_prev w = (Ok tt, w') ->
  (forall w1 w1', boundary_values (self w1) = boundary_values (self w') ->
                  flux_sized d_graph (self w1) ->
                  inout_vertex t u_prev v w1 = (Ok tt, w1') ->
                  cached_flux (self w1') (leaf_in d_graph v) (e_id (leaf_edge d_graph v)) = val) ->
  cached_flux (self w') (leaf_in d_graph v) (e_id (leaf_edge d_graph v)) = val.
Proof.
  intros Hsz Hin Hv Hinit Hval.
  rewrite init_after_nfurcation in Hinit.
  set (w3 := snd (calculate_nfurcation_fluxes u_prev (after_exchange t u_prev w))) in *.
  pose proof (calculate_inout_fluxes_frame t u_prev w3) as Hframe.
  rewrite Hinit in Hframe. simpl in Hframe.
  apply (for_each_inout_cached t u_prev v val (boundary_values (self w')) Hv Hval
           (get_active_vertex_ids d_graph) w3 w' Hin).
  - now destruct Hframe as (-> & _).
  - apply (flux_sized_frame (after_exchange t u_prev w)).
    + apply calculate_nfurcation_fluxes_frame.
    + destruct (evaluate_macro_edge_boundary_values_caches u_prev
                  {| self := set_current_t t (self w); cerr := cerr w |})
        as (_ & a & b & c & d & _).
      unfold after_exchange, flux_sized.
      cbn [self d_Q_macro_edge_flux_l d_Q_macro_edge_flux_r d_A_macro_edge_flux_l
             d_A_macro_edge_flux_r set_A_boundary_value set_Q_boundary_value].
      rewrite a, b, c, d. exact Hsz.
  - exact Hinit.
Qed.

End Consistent.


(** *** The guarded accessors *)

Lemma get_fluxes_on_macro_edge_guard (t : double) (edge : Edge) (u_prev : list double)
    (Q_up A_up : list double) (w : World) :
  (if double_ne (d_current_t (self w)) t
   then fst (get_fluxes_on_macro_edge t edge u_prev Q_up A_up w) = Throw not_initialized
   else is_throw (fst (get_fluxes_on_macro_edge t edge u_prev Q_up A_up w)) = false) /\
  snd (get_fluxes_on_macro_edge t edge u_prev Q_up A_up w) = w.
Proof.
  unfold get_fluxes_on_macro_edge, bind, gets, throw, assert_, ret. cbv beta iota.
  destruct (double_ne (d_current_t (self w)) t); [split; reflexivity|].
  destruct (Nat.eqb _ _); [|split; reflexivity].
  destruct (Nat.eqb _ _); split; reflexivity.
Qed.

Lemma get_fluxes_on_nfurcation_guard (t : double) (v : Vertex) (Q_up A_up : list double)
    (w : World) :
  (if double_ne (d_current_t (self w)) t
   then fst (get_fluxes_on_nfurcation t v Q_up A_up w) = Throw not_initialized
   else is_throw (fst (get_fluxes_on_nfurcation t v Q_up A_up w)) = false) /\
  snd (get_fluxes_on_nfurcation t v Q_up A_up w) = w.
Proof.
  unfold get_fluxes_on_nfurcation, bind, gets, throw, ret. cbv beta iota.
  destruct (double_ne (d_current_t (self w)) t); split; reflexivity.
Qed.

(** C3. After [init(t, u)], whatever the outcome of that call and whatever
    the evaluator held before, [get_fluxes_on_macro_edge(t', ...)] and
    [get_fluxes_on_nfurcation(t', ...)] throw "not initialized" exactly when
    [t != t'] holds for the two doubles, do not throw otherwise, and leave
    the evaluator and [std::cerr] as they were. *)
Theorem accessors_guarded_by_time_stamp
    (t t' : double) (u_prev u' : list double) (w0 : World)
    (edge : Edge) (Q_e A_e : list double) (v : Vertex) (Q_v A_v : list double) :
  let w := snd (init t u_prev w0) in
  (if double_ne t t'
   then fst (get_fluxes_on_macro_edge t' edge u' Q_e A_e w) = Throw not_initialized
   else is_throw (fst (get_fluxes_on_macro_edge t' edge u' Q_e A_e w)) = false) /\
  snd (get_fluxes_on_macro_edge t' edge u' Q_e A_e w) = w /\
  (if double_ne t t'
   then fst (get_fluxes_on_nfurcation t' v Q_v A_v w) = Throw not_initialized
   else is_throw (fst (get_fluxes_on_nfurcation t' v Q_v A_v w)) = false) /\
  snd (get_fluxes_on_nfurcation t' v Q_v A_v w) = w.
Proof.
  intros w.
  pose proof (get_fluxes_on_macro_edge_guard t' edge u' Q_e A_e w) as [H1 H2].
  pose proof (get_fluxes_on_nfurcation_guard t' v Q_v A_v w) as [H3 H4].
  unfold w in H1, H3. rewrite init_current_t in H1, H3. now repeat split.
Qed.

(** C10. A freshly constructed evaluator carries the time stamp NaN, so both
    accessors throw "not initialized" for every [t]; and after [init(NaN, u)]
    they throw for every [t'] as well, [t' = NaN] included. *)
Theorem accessors_throw_on_nan_time_stamp
    (t : double) (u_prev u' : list double) (log : list string) (w0 : World)
    (edge : Edge) (Q_e A_e : list double) (v : Vertex) (Q_v A_v : list double) :
  let new := {| self := FlowUpwindEvaluator_new d_graph; cerr := log |} in
  let w := snd (init nan u_prev w0) in
  d_current_t (self new) = nan /\
  fst (get_fluxes_on_macro_edge t edge u' Q_e A_e new) = Throw not_initialized /\
  fst (get_fluxes_on_nfurcation t v Q_v A_v new) = Throw not_initialized /\
  fst (get_fluxes_on_macro_edge t edge u' Q_e A_e w) = Throw not_initialized /\
  fst (get_fluxes_on_nfurcation t v Q_v A_v w) = Throw not_initialized /\
  fst (get_fluxes_on_macro_edge nan edge u' Q_e A_e w) = Throw not_initialized /\
  fst (get_fluxes_on_nfurcation nan v Q_v A_v w) = Throw not_initialized.
Proof.
  intros new w.
  assert (forall (x : World) (s : double), d_current_t (self x) = nan ->
            fst (get_fluxes_on_macro_edge s edge u' Q_e A_e x) = Throw not_initialized /\
            fst (get_fluxes_on_nfurcation s v Q_v A_v x) = Throw not_initialized) as H.
  { intros x s Hx.
    pose proof (get_fluxes_on_macro_edge_guard s edge u' Q_e A_e x) as [H1 _].
    pose proof (get_fluxes_on_nfurcation_guard s v Q_v A_v x) as [H3 _].
    rewrite Hx, double_ne_nan_l in H1, H3. now split. }
  assert (d_current_t (self w) = nan) as Hw by apply init_current_t.
  split; [reflexivity|].
  split; [now apply H|]. split; [now apply H|].
  split; [now apply H|]. split; [now apply H|].
  split; now apply H.
Qed.

(** *** The phases of [init] *)

Lemma after_exchange_boundary_values (t : double) (u_prev : list double) (w : World) :
  let w0 := {| self := set_current_t t (self w); cerr := cerr w |} in
  let w1 := snd (evaluate_macro_edge_boundary_values u_prev w0) in
  boundary_values (self (after_exchange t u_prev w)) =
  (update_ghost_layer (d_Q_macro_edge_boundary_value (self w1)),
   update_ghost_layer (d_A_macro_edge_boundary_value (self w1))).
Proof. reflexivity. Qed.

(** C7. [init] first completes the extraction of the boundary values of all
    active edges (which cannot fail), then exchanges the Q buffer and the A
    buffer, and only then runs the junction pass followed by the leaf pass;
    every vertex resolution of either pass starts in a world whose two
    boundary-value buffers are the exchanged ones, and they are still the
    ones held when [init] is left. *)
Theorem init_resolves_after_exchange (t : double) (u_prev : list double) (w : World) :
  let w0 := {| self := set_current_t t (self w); cerr := cerr w |} in
  let w1 := snd (evaluate_macro_edge_boundary_values u_prev w0) in
  let synced := (update_ghost_layer (d_Q_macro_edge_boundary_value (self w1)),
                 update_ghost_layer (d_A_macro_edge_boundary_value (self w1))) in
  let w2 := after_exchange t u_prev w in
  let w3 := snd (calculate_nfurcation_fluxes u_prev w2) in
  fst (evaluate_macro_edge_boundary_values u_prev w0) = Ok tt /\
  boundary_values (self w2) = synced /\
  init t u_prev w =
    (calculate_nfurcation_fluxes u_prev ;; calculate_inout_fluxes t u_prev) w2 /\
  Forall (fun w' => boundary_values (self w') = synced)
    (entry_worlds (get_active_vertex_ids d_graph) (nfurcation_vertex u_prev) w2) /\
  fst (calculate_nfurcation_fluxes u_prev w2) = Ok tt /\
  init t u_prev w = calculate_inout_fluxes t u_prev w3 /\
  Forall (fun w' => boundary_values (self w') = synced)
    (entry_worlds (get_active_vertex_ids d_graph) (inout_vertex t u_prev) w3) /\
  boundary_values (self (snd (init t u_prev w))) = synced.
Proof.
  intros w0 w1 synced w2 w3.
  assert (boundary_values (self w2) = synced) as H2 by reflexivity.
  assert (boundary_values (self w3) = synced) as H3.
  { rewrite <- H2. apply calculate_nfurcation_fluxes_frame. }
  split; [apply evaluate_macro_edge_boundary_values_ok|].
  split; [exact H2|].
  split; [apply init_phases|].
  split.
  { apply Forall_forall. intros w' Hin. rewrite <- H2.
    apply (entry_worlds_rel same_frame (nfurcation_vertex u_prev)
             (get_active_vertex_ids d_graph) same_frame_refl same_frame_trans
             (nfurcation_vertex_frame u_prev) w2 w' Hin). }
  split; [apply calculate_nfurcation_fluxes_ok|].
  split; [apply init_after_nfurcation|].
  split.
  { apply Forall_forall. intros w' Hin. rewrite <- H3.
    apply (entry_worlds_rel same_frame (inout_vertex t u_prev)
             (get_active_vertex_ids d_graph) same_frame_refl same_frame_trans
             (inout_vertex_frame t u_prev) w3 w' Hin). }
  rewrite init_after_nfurcation. rewrite <- H3.
  apply calculate_inout_fluxes_frame.
Qed.


(** *** What a leaf resolution stores *)

Lemma inout_vertex_inflow (t : double) (u_prev : list double) (v : nat)
    (inflow : double -> double) (w : World) :
  is_leaf (get_vertex d_graph v) = true ->
  v_flow_type (get_vertex d_graph v) = InflowPrescribed inflow ->
  let edge := leaf_edge d_graph v in
  let param := e_physical_data edge in
  let in_ := leaf_in d_graph v in
  let Q := vec_get (d_Q_macro_edge_boundary_value (self w)) (boundary_slot in_ (e_id edge)) in
  let A := vec_get (d_A_macro_edge_boundary_value (self w)) (boundary_slot in_ (e_id edge)) in
  let Q_star := ((if in_ then -1 else 1) * inflow t)%float in
  inout_vertex t u_prev v w =
  set_flux in_ (e_id edge) Q_star
    (assemble_in_flow Q A in_ Q_star (G0 param) (rho param) (A0 param)) w.
Proof.
  intros Hleaf Hkind. unfold inout_vertex, is_inflow, get_inflow_value.
  rewrite Hleaf, Hkind. reflexivity.
Qed.

Lemma inout_vertex_free_outflow (t : double) (u_prev : list double) (v : nat) (w : World) :
  is_leaf (get_vertex d_graph v) = true ->
  v_flow_type (get_vertex d_graph v) = FreeOutflow ->
  let edge := leaf_edge d_graph v in
  let param := e_physical_data edge in
  let in_ := leaf_in d_graph v in
  let Q := vec_get (d_Q_macro_edge_boundary_value (self w)) (boundary_slot in_ (e_id edge)) in
  let A := vec_get (d_A_macro_edge_boundary_value (self w)) (boundary_slot in_ (e_id edge)) in
  let W1 := if in_
            then calculate_W1_value 0 (A0 param) (G0 param) (rho param) (A0 param)
            else calculate_W1_value Q A (G0 param) (rho param) (A0 param) in
  let W2 := if in_
            then calculate_W2_value Q A (G0 param) (rho param) (A0 param)
            else calculate_W2_value 0 (A0 param) (G0 param) (rho param) (A0 param) in
  let up := solve_W12 W1 W2 (G0 param) (rho param) (A0 param) in
  inout_vertex t u_prev v w = set_flux in_ (e_id edge) (fst up) (snd up) w.
Proof.
  intros Hleaf Hkind.
  unfold inout_vertex, is_inflow, is_free_outflow.
  rewrite Hleaf, Hkind. reflexivity.
Qed.

Lemma inout_vertex_windkessel (t : double) (u_prev : list double) (v : nat) (w w' : World) :
  is_leaf (get_vertex d_graph v) = true ->
  v_flow_type (get_vertex d_graph v) = WindkesselOutflow ->
  inout_vertex t u_prev v w = (Ok tt, w') ->
  let vertex := get_vertex d_graph v in
  let edge := leaf_edge d_graph v in
  let param := e_physical_data edge in
  let in_ := leaf_in d_graph v in
  let Q := vec_get (d_Q_macro_edge_boundary_value (self w)) (boundary_slot in_ (e_id edge)) in
  let A := vec_get (d_A_macro_edge_boundary_value (self w)) (boundary_slot in_ (e_id edge)) in
  let p_c := vec_get u_prev
               (nth 0 (vertex_dof_indices (get_local_dof_map_vertex d_dof_map vertex)) 0) in
  let W := if in_
           then calculate_W2_value Q A (G0 param) (rho param) (A0 param)
           else calculate_W1_value Q A (G0 param) (rho param) (A0 param) in
  let s := windkessel_newton pow param W p_c A in
  let Q_out := ((if in_ then 1 else -1)
                * (calculate_static_p (ns_A_out s) (G0 param) (A0 param) - p_c)
                / windkessel_R1 pow param)%float in
  w' = snd (set_flux in_ (e_id edge) Q_out (ns_A_out s)
              {| self := self w; cerr := cerr w ++ ns_cerr s |}).
Proof.
  intros Hleaf Hkind. unfold inout_vertex, is_inflow, is_free_outflow, is_windkessel_outflow.
  rewrite Hleaf, Hkind.
  unfold bind, gets, assert_, print_cerr. cbv beta iota zeta.
  destruct (Nat.eqb _ 1); [|discriminate].
  fold (leaf_edge d_graph v). fold (leaf_in d_graph v).
  destruct (leaf_in d_graph v); simpl; now intros [= <-].
Qed.

Section LeafCache.

Hypothesis Hgraph : graph_consistent d_graph.

Lemma leaf_cached_after_store (v : nat) (w : World) (Q A : double) :
  is_leaf (get_vertex d_graph v) = true ->
  flux_sized d_graph (self w) ->
  cached_flux (self (snd (set_flux (leaf_in d_graph v) (e_id (leaf_edge d_graph v)) Q A w)))
    (leaf_in d_graph v) (e_id (leaf_edge d_graph v)) = (Q, A).
Proof.
  intros Hleaf (a & b & c & d).
  pose proof (leaf_edge_range Hgraph v Hleaf) as Hlt.
  apply set_flux_cached; lia.
Qed.


(** C5. On a consistent graph, with the caches sized as the constructor
    sizes them: after a successful [init(t, u)], the pair cached for the edge
    of an active leaf vertex with prescribed inflow [inflow] is [(Q*, A_up)] with
    [Q* = s * inflow(t)], [s = -1] if the edge points to the vertex and
    [+1] otherwise, and [A_up = assemble_in_flow(Q, A, in, Q*, G0, rho,
    A0)] for the boundary values [(Q, A)] of the edge next to the vertex. *)
Theorem inflow_flux_cached (t : double) (u_prev : list double) (v : nat)
    (inflow : double -> double) (w w' : World) :
  flux_sized d_graph (self w) ->
  v ∈ get_active_vertex_ids d_graph ->
  is_leaf (get_vertex d_graph v) = true ->
  v_flow_type (get_vertex d_graph v) = InflowPrescribed inflow ->
  init t u_prev w = (Ok tt, w') ->
  let edge := leaf_edge d_graph v in
  let param := e_physical_data edge in
  let in_ := leaf_in d_graph v in
  let Q := vec_get (d_Q_macro_edge_boundary_value (self w')) (boundary_slot in_ (e_id edge)) in
  let A := vec_get (d_A_macro_edge_boundary_value (self w')) (boundary_slot in_ (e_id edge)) in
  let Q_star := ((if in_ then -1 else 1) * inflow t)%float in
  cached_flux (self w') in_ (e_id edge) =
  (Q_star, assemble_in_flow Q A in_ Q_star (G0 param) (rho param) (A0 param)).
Proof.
  intros Hsz Hin Hleaf Hkind Hinit. cbv zeta.
  apply (init_leaf_cached Hgraph t u_prev v _ w w' Hsz Hin Hleaf Hinit).
  intros w1 w1' [= HQ HA] Hsz1 Hrun.
  rewrite (inout_vertex_inflow t u_prev v inflow w1 Hleaf Hkind) in Hrun.
  cbv zeta in Hrun. rewrite HQ, HA in Hrun.
  apply (f_equal snd) in Hrun. simpl in Hrun. rewrite <- Hrun.
  now apply leaf_cached_after_store.
Qed.

(** X14. On a consistent graph, with the caches sized as the constructor
    sizes them: after a successful [init], the pair cached for the edge of an
    active free-outflow leaf is [solve_W12(W1, W2)], where the outgoing
    invariant is that of the boundary values [(Q, A)] of the edge next to
    the vertex (W2 if the edge points to the vertex, W1 otherwise) and the
    incoming one is that of the reference state [(Q_init, A0) = (0, A0)]. *)
Theorem free_outflow_combines_invariants (t : double) (u_prev : list double) (v : nat)
    (w w' : World) :
  flux_sized d_graph (self w) ->
  v ∈ get_active_vertex_ids d_graph ->
  is_leaf (get_vertex d_graph v) = true ->
  v_flow_type (get_vertex d_graph v) = FreeOutflow ->
  init t u_prev w = (Ok tt, w') ->
  let edge := leaf_edge d_graph v in
  let param := e_physical_data edge in
  let in_ := leaf_in d_graph v in
  let Q := vec_get (d_Q_macro_edge_boundary_value (self w')) (boundary_slot in_ (e_id edge)) in
  let A := vec_get (d_A_macro_edge_boundary_value (self w')) (boundary_slot in_ (e_id edge)) in
  let W1_ref := calculate_W1_value 0 (A0 param) (G0 param) (rho param) (A0 param) in
  let W2_ref := calculate_W2_value 0 (A0 param) (G0 param) (rho param) (A0 param) in
  let W1 := if in_ then W1_ref
            else calculate_W1_value Q A (G0 param) (rho param) (A0 param) in
  let W2 := if in_ then calculate_W2_value Q A (G0 param) (rho param) (A0 param)
            else W2_ref in
  cached_flux (self w') in_ (e_id edge) =
    solve_W12 W1 W2 (G0 param) (rho param) (A0 param).
Proof.
  intros Hsz Hin Hleaf Hkind Hinit. cbv zeta.
  apply (init_leaf_cached Hgraph t u_prev v _ w w' Hsz Hin Hleaf Hinit).
  intros w1 w1' [= HQ HA] Hsz1 Hrun.
  rewrite (inout_vertex_free_outflow t u_prev v w1 Hleaf Hkind) in Hrun.
  cbv zeta in Hrun. rewrite HQ, HA in Hrun.
  apply (f_equal snd) in Hrun. simpl in Hrun. rewrite <- Hrun.
  rewrite leaf_cached_after_store by assumption. now destruct (solve_W12 _ _ _ _ _).
Qed.

(** The Windkessel outlet: the pair cached after a successful [init]. *)
Lemma windkessel_flux_cached (t : double) (u_prev : list double) (v : nat) (w w' : World) :
  flux_sized d_graph (self w) ->
  v ∈ get_active_vertex_ids d_graph ->
  is_leaf (get_vertex d_graph v) = true ->
  v_flow_type (get_vertex d_graph v) = WindkesselOutflow ->
  init t u_prev w = (Ok tt, w') ->
  let vertex := get_vertex d_graph v in
  let edge := leaf_edge d_graph v in
  let param := e_physical_data edge in
  let in_ := leaf_in d_graph v in
  let Q := vec_get (d_Q_macro_edge_boundary_value (self w')) (boundary_slot in_ (e_id edge)) in
  let A := vec_get (d_A_macro_edge_boundary_value (self w')) (boundary_slot in_ (e_id edge)) in
  let p_c := vec_get u_prev
               (nth 0 (vertex_dof_indices (get_local_dof_map_vertex d_dof_map vertex)) 0) in
  let W := if in_
           then calculate_W2_value Q A (G0 param) (rho param) (A0 param)
           else calculate_W1_value Q A (G0 param) (rho param) (A0 param) in
  let A_out := ns_A_out (windkessel_newton pow param W p_c A) in
  cached_flux (self w') in_ (e_id edge) =
  (spec_Q_out pow (G0 param) (rho param) (A0 param) p_c in_ A_out, A_out).
Proof.
  intros Hsz Hin Hleaf Hkind Hinit. cbv zeta.
  apply (init_leaf_cached Hgraph t u_prev v _ w w' Hsz Hin Hleaf Hinit).
  intros w1 w1' [= HQ HA] Hsz1 Hrun.
  apply (inout_vertex_windkessel t u_prev v w1 w1' Hleaf Hkind) in Hrun.
  cbv zeta in Hrun. rewrite HQ, HA in Hrun. rewrite Hrun.
  now rewrite leaf_cached_after_store.
Qed.


(** C1 (amended). On a consistent graph, with the caches sized as the
    constructor sizes them: after a successful [init], the area cached for the
    edge of an active Windkessel leaf is what the damped Newton iteration with
    relaxation factor 0.25 (the code's [0.5 / 2.]), tolerance 1e-10 and cap
    250 on the Windkessel residual gives from the boundary area [A], its test
    coming after the step: at least one step is taken, the residual at [A]
    itself not being examined; the residual is examined after each step, and
    the iteration goes on exactly as long as it is above the tolerance and
    fewer than 250 steps were made. So the area is the iterate of some step
    [k] in 1..250, no earlier step had reached a residual within the
    tolerance, and [k] is 250 or the residual after step [k] is no longer
    above the tolerance. *)
Theorem windkessel_area_by_damped_newton (t : double) (u_prev : list double) (v : nat)
    (w w' : World) :
  flux_sized d_graph (self w) ->
  v ∈ get_active_vertex_ids d_graph ->
  is_leaf (get_vertex d_graph v) = true ->
  v_flow_type (get_vertex d_graph v) = WindkesselOutflow ->
  init t u_prev w = (Ok tt, w') ->
  let vertex := get_vertex d_graph v in
  let edge := leaf_edge d_graph v in
  let param := e_physical_data edge in
  let in_ := leaf_in d_graph v in
  let Q := vec_get (d_Q_macro_edge_boundary_value (self w')) (boundary_slot in_ (e_id edge)) in
  let A := vec_get (d_A_macro_edge_boundary_value (self w')) (boundary_slot in_ (e_id edge)) in
  let p_c := vec_get u_prev
               (nth 0 (vertex_dof_indices (get_local_dof_map_vertex d_dof_map vertex)) 0) in
  let W := if in_
           then calculate_W2_value Q A (G0 param) (rho param) (A0 param)
           else calculate_W1_value Q A (G0 param) (rho param) (A0 param) in
  damped_newton_outcome 0.25%float 1.0e-10%float 250
    (windkessel_f pow param W p_c) (windkessel_df pow param W p_c) A
    (snd (cached_flux (self w') in_ (e_id edge))).
Proof.
  intros Hsz Hin Hleaf Hkind Hinit. cbv zeta.
  rewrite (windkessel_flux_cached t u_prev v w w' Hsz Hin Hleaf Hkind Hinit).
  cbn [snd]. apply newton_outcome.
Qed.

(** C2. On a consistent graph, with the caches sized as the constructor
    sizes them: after a successful [init], for an active Windkessel leaf, the
    function whose root the Newton loop seeks is the residual
    W - (p(A_out) - p_c)/(A_out R1) - 4 c0 (A_out/A0)^(1/4), with W the
    invariant of the boundary values (W2 if the edge points to the vertex,
    W1 otherwise) and p_c the entry of the previous solution at the
    vertex's first dof index; the cached pair is [(Q_out, A_out)] with
    [A_out] the area the loop returns and
    [Q_out = sign (p(A_out) - p_c) / R1]. *)
Theorem windkessel_residual_and_outflow (t : double) (u_prev : list double) (v : nat)
    (w w' : World) :
  flux_sized d_graph (self w) ->
  v ∈ get_active_vertex_ids d_graph ->
  is_leaf (get_vertex d_graph v) = true ->
  v_flow_type (get_vertex d_graph v) = WindkesselOutflow ->
  init t u_prev w = (Ok tt, w') ->
  let vertex := get_vertex d_graph v in
  let edge := leaf_edge d_graph v in
  let param := e_physical_data edge in
  let in_ := leaf_in d_graph v in
  let Q := vec_get (d_Q_macro_edge_boundary_value (self w')) (boundary_slot in_ (e_id edge)) in
  let A := vec_get (d_A_macro_edge_boundary_value (self w')) (boundary_slot in_ (e_id edge)) in
  let p_c := vec_get u_prev
               (nth 0 (vertex_dof_indices (get_local_dof_map_vertex d_dof_map vertex)) 0) in
  let W := if in_
           then calculate_W2_value Q A (G0 param) (rho param) (A0 param)
           else calculate_W1_value Q A (G0 param) (rho param) (A0 param) in
  let residual := spec_residual pow (G0 param) (rho param) (A0 param) W p_c in
  let A_out := ns_A_out (windkessel_newton pow param W p_c A) in
  windkessel_f pow param W p_c = residual /\
  windkessel_newton pow param W p_c A =
    newton_loop 250 residual (windkessel_df pow param W p_c) (newton_init A) /\
  cached_flux (self w') in_ (e_id edge) =
  (spec_Q_out pow (G0 param) (rho param) (A0 param) p_c in_ A_out, A_out).
Proof.
  intros Hsz Hin Hleaf Hkind Hinit.
  split; [reflexivity|]. split; [reflexivity|].
  exact (windkessel_flux_cached t u_prev v w w' Hsz Hin Hleaf Hkind Hinit).
Qed.

End LeafCache.


(** *** Upwinding inside a macro-edge *)

Lemma upwind_interior_step_length (edge : Edge) (u_prev : list double) (l : list nat)
    (up : list double * list double) :
  let r := fold_left
             (fun up micro_vertex_id =>
                let QA := micro_vertex_upwind edge u_prev micro_vertex_id in
                (vec_set (fst up) micro_vertex_id (fst QA),
                 vec_set (snd up) micro_vertex_id (snd QA))) l up in
  List.length (fst r) = List.length (fst up) /\ List.length (snd r) = List.length (snd up).
Proof.
  revert up. induction l as [|x l IH]; intros up; [split; reflexivity|].
  cbn [fold_left]. cbv zeta in IH |- *. destruct (IH (vec_set (fst up) x
    (fst (micro_vertex_upwind edge u_prev x)), vec_set (snd up) x
    (snd (micro_vertex_upwind edge u_prev x)))) as [H1 H2].
  rewrite H1, H2. cbn [fst snd]. unfold vec_set. now rewrite !length_insert.
Qed.

Lemma upwind_interior_step_other (edge : Edge) (u_prev : list double) (l : list nat)
    (up : list double * list double) (i : nat) :
  i ∉ l ->
  let r := fold_left
             (fun up micro_vertex_id =>
                let QA := micro_vertex_upwind edge u_prev micro_vertex_id in
                (vec_set (fst up) micro_vertex_id (fst QA),
                 vec_set (snd up) micro_vertex_id (snd QA))) l up in
  vec_get (fst r) i = vec_get (fst up) i /\ vec_get (snd r) i = vec_get (snd up) i.
Proof.
  revert up. induction l as [|x l IH]; intros up Hnotin; [split; reflexivity|].
  apply not_elem_of_cons in Hnotin as [Hne Hnotin].
  cbn [fold_left]. cbv zeta in IH |- *.
  destruct (IH (vec_set (fst up) x (fst (micro_vertex_upwind edge u_prev x)),
                vec_set (snd up) x (snd (micro_vertex_upwind edge u_prev x))) Hnotin)
    as [H1 H2].
  rewrite H1, H2. cbn [fst snd]. unfold vec_get, vec_set.
  now rewrite !list_lookup_insert_ne by congruence.
Qed.

Lemma upwind_interior_step_at (edge : Edge) (u_prev : list double) (l : list nat)
    (up : list double * list double) (i : nat) :
  NoDup l -> i ∈ l -> i < List.length (fst up) -> i < List.length (snd up) ->
  let r := fold_left
             (fun up micro_vertex_id =>
                let QA := micro_vertex_upwind edge u_prev micro_vertex_id in
                (vec_set (fst up) micro_vertex_id (fst QA),
                 vec_set (snd up) micro_vertex_id (snd QA))) l up in
  (vec_get (fst r) i, vec_get (snd r) i) = micro_vertex_upwind edge u_prev i.
Proof.
  revert up. induction l as [|x l IH]; intros up Hnodup Hin H1 H2.
  - now apply elem_of_nil in Hin.
  - apply NoDup_cons in Hnodup as [Hx Hnodup]. cbn [fold_left]. cbv zeta in IH |- *.
    destruct (decide (i ∈ l)) as [Hl|Hl].
    + apply IH; try assumption; cbn [fst snd]; unfold vec_set; now rewrite length_insert.
    + apply elem_of_cons in Hin as [->|Hin]; [|contradiction].
      destruct (upwind_interior_step_other edge u_prev l
                  (vec_set (fst up) x (fst (micro_vertex_upwind edge u_prev x)),
                   vec_set (snd up) x (snd (micro_vertex_upwind edge u_prev x))) x Hl)
        as [E1 E2].
      cbv zeta in E1, E2. rewrite E1, E2. cbn [fst snd]. unfold vec_get, vec_set.
      rewrite !list_lookup_insert_eq by assumption. cbn [default].
      now destruct (micro_vertex_upwind edge u_prev x).
  Qed.

(** C8. When [get_fluxes_on_macro_edge] returns, on an edge with at least one
    micro-edge: at every internal micro-vertex [i] the returned pair is
    [solve_W12(W1_r, W2_l)], with [W2_l] the W2 invariant of the left
    micro-edge [i - 1] at its right quadrature point and [W1_r] the W1
    invariant of the right micro-edge [i] at its left quadrature point - one
    evaluation of the closed-form solve, no iteration; the first and the last
    entries are the fluxes cached for the left and the right end of the edge;
    and the evaluator is left unchanged. *)
Theorem macro_edge_fluxes (t : double) (edge : Edge) (u_prev : list double)
    (Q_up_macro_edge A_up_macro_edge Q_up A_up : list double) (w w' : World) :
  get_fluxes_on_macro_edge t edge u_prev Q_up_macro_edge A_up_macro_edge w
    = (Ok (Q_up, A_up), w') ->
  let local_dof_map := get_local_dof_map d_dof_map edge in
  1 <= num_micro_edges local_dof_map ->
  let param := e_physical_data edge in
  let h := (length param / double_of_size (num_micro_edges local_dof_map))%float in
  let degree := size_sub (num_basis_functions local_dof_map) 1 in
  let at_qp micro_edge component :=
    evaluate_dof_at_quadrature_points degree h
      (extract_dof (edge_dof_indices local_dof_map micro_edge component) u_prev) in
  let W2_l i := calculate_W2_value (vec_get (at_qp (i - 1) 0) 1) (vec_get (at_qp (i - 1) 1) 1)
                  (G0 param) (rho param) (A0 param) in
  let W1_r i := calculate_W1_value (vec_get (at_qp i 0) 0) (vec_get (at_qp i 1) 0)
                  (G0 param) (rho param) (A0 param) in
  (forall i, 1 <= i < num_micro_vertices local_dof_map - 1 ->
     (vec_get Q_up i, vec_get A_up i) =
       solve_W12 (W1_r i) (W2_l i) (G0 param) (rho param) (A0 param)) /\
  (vec_get Q_up 0, vec_get A_up 0) = cached_flux (self w) false (e_id edge) /\
  (vec_get Q_up (num_micro_vertices local_dof_map - 1),
   vec_get A_up (num_micro_vertices local_dof_map - 1)) =
    cached_flux (self w) true (e_id edge) /\
  w' = w.
Proof.
  intros Hrun ldm Hnme. cbv zeta.
  unfold get_fluxes_on_macro_edge, bind, gets, throw, assert_, ret in Hrun.
  cbv beta iota in Hrun.
  destruct (double_ne _ _); [discriminate|].
  fold ldm in Hrun.
  destruct (Nat.eqb_spec (List.length Q_up_macro_edge) (num_micro_vertices ldm)) as [HlQ|];
    [|discriminate].
  destruct (Nat.eqb_spec (List.length A_up_macro_edge) (num_micro_vertices ldm)) as [HlA|];
    [|discriminate].
  injection Hrun as HQ HA Hw.
  set (up := upwind_interior edge u_prev (Q_up_macro_edge, A_up_macro_edge)) in *.
  destruct (upwind_interior_step_length edge u_prev
              (seq 1 (num_micro_vertices ldm - 1 - 1)) (Q_up_macro_edge, A_up_macro_edge))
    as [L1 L2].
  cbv zeta in L1, L2. cbn [fst snd] in L1, L2.
  change (fold_left _ _ _) with up in L1, L2.
  assert (forall i, 1 <= i < num_micro_vertices ldm - 1 ->
            (vec_get (fst up) i, vec_get (snd up) i) = micro_vertex_upwind edge u_prev i)
    as Hinterior.
  { intros i Hi.
    apply (upwind_interior_step_at edge u_prev (seq 1 (num_micro_vertices ldm - 1 - 1))
             (Q_up_macro_edge, A_up_macro_edge) i).
    - apply NoDup_seq.
    - apply elem_of_seq. lia.
    - cbn [fst]. lia.
    - cbn [snd]. lia. }
  unfold num_micro_vertices in *.
  subst Q_up A_up. unfold vec_get, vec_set in *.
  split; [|split; [|split]].
  - intros i Hi. rewrite !list_lookup_insert_ne by lia. exact (Hinterior i Hi).
  - rewrite !(list_lookup_insert_ne _ (num_micro_edges ldm + 1 - 1) 0) by lia.
    rewrite !list_lookup_insert_eq by lia. reflexivity.
  - rewrite !list_lookup_insert_eq by (rewrite length_insert; lia). reflexivity.
  - now symmetry.
Qed.

End EvaluatorFacts.

(** ** The sample network *)

Lemma sample_graph_consistent : graph_consistent Sample.graph.
Proof.
  split.
  - intros i. do 4 (destruct i as [|i]; [reflexivity|]). reflexivity.
  - intros i. do 3 (destruct i as [|i]; [reflexivity|]). reflexivity.
  - intros i e Hin. apply list_elem_of_In in Hin.
    do 4 (destruct i as [|i]; [simpl in Hin; intuition (subst; simpl; auto)|]).
    destruct Hin.
  - intros i e Hin. apply list_elem_of_In in Hin.
    do 4 (destruct i as [|i]; [simpl in Hin; intuition (subst; simpl; lia)|]).
    destruct Hin.
Qed.

Lemma sample_fresh_sized : flux_sized Sample.graph (self Sample.fresh).
Proof. repeat split. Qed.

Lemma sample_active (v : nat) : v < 4 -> v ∈ get_active_vertex_ids Sample.graph.
Proof. intros Hv. apply list_elem_of_In. simpl. lia. Qed.

(** Discharge the first hypothesis of [H] at the concrete input. *)
Tactic Notation "discharge" hyp(H) "by" tactic3(tac) :=
  match type of H with
  | ?A -> _ => let HA := fresh "HA" in assert (HA : A) by tac; specialize (H HA); clear HA
  end.

Ltac by_evaluation := vm_compute; reflexivity.

(** C5 at vertex 0 of the sample network, t = 0.5: the edge leaves the vertex,
    so Q* = +(1 + t) = 1.5. *)
Lemma inflow_flux_cached_witness :
  cached_flux (self (Sample.after_init 0.5 Sample.flowing)) false 0 = (1.5%float, 1%float).
Proof.
  pose proof (inflow_flux_cached Sample.pow Sample.calculate_W1_value
                Sample.calculate_W2_value Sample.solve_W12 Sample.assemble_in_flow
                Sample.solve_at_nfurcation Sample.update_ghost_layer
                Sample.evaluate_dof_at_boundary_points Sample.extract_dof
                Sample.graph Sample.dof_map sample_graph_consistent
                0.5%float Sample.flowing 0 Sample.waveform Sample.fresh
                (Sample.after_init 0.5 Sample.flowing)
                sample_fresh_sized (sample_active 0 ltac:(lia))) as H.
  discharge H by reflexivity.
  discharge H by reflexivity.
  discharge H by by_evaluation.
  vm_compute in H. vm_compute. exact H.
Defined.

(** X14 at vertex 2 of the sample network, whose edge is at rest at that
    end. *)
Lemma free_outflow_combines_invariants_witness :
  cached_flux (self (Sample.after_init 0.5 Sample.flowing)) true 1 =
    Sample.solve_W12 (Sample.calculate_W1_value 0 1 2 1 1)
      (Sample.calculate_W2_value 0 1 2 1 1) 2 1 1.
Proof.
  pose proof (free_outflow_combines_invariants Sample.pow Sample.calculate_W1_value
                Sample.calculate_W2_value Sample.solve_W12 Sample.assemble_in_flow
                Sample.solve_at_nfurcation Sample.update_ghost_layer
                Sample.evaluate_dof_at_boundary_points Sample.extract_dof
                Sample.graph Sample.dof_map sample_graph_consistent
                0.5%float Sample.flowing 2 Sample.fresh
                (Sample.after_init 0.5 Sample.flowing)
                sample_fresh_sized (sample_active 2 ltac:(lia))) as H.
  discharge H by reflexivity.
  discharge H by reflexivity.
  discharge H by by_evaluation.
  cbv zeta in H. vm_compute in H. vm_compute. exact H.
Defined.

(** C1 at vertex 3 of the sample network with capillary pressure 0.5. *)
Lemma windkessel_area_by_damped_newton_witness :
  damped_newton_outcome 0.25 1.0e-10 250
    (windkessel_f Sample.pow Sample.data 4 0.5) (windkessel_df Sample.pow Sample.data 4 0.5) 1
    (snd (cached_flux (self (Sample.after_init 0.5 (Sample.at_rest 0.5))) true 2)).
Proof.
  pose proof (windkessel_area_by_damped_newton Sample.pow Sample.calculate_W1_value
                Sample.calculate_W2_value Sample.solve_W12 Sample.assemble_in_flow
                Sample.solve_at_nfurcation Sample.update_ghost_layer
                Sample.evaluate_dof_at_boundary_points Sample.extract_dof
                Sample.graph Sample.dof_map sample_graph_consistent
                0.5%float (Sample.at_rest 0.5) 3 Sample.fresh
                (Sample.after_init 0.5 (Sample.at_rest 0.5))
                sample_fresh_sized (sample_active 3 ltac:(lia))) as H.
  discharge H by reflexivity.
  discharge H by reflexivity.
  discharge H by by_evaluation.
  cbv zeta in H. exact H.
Defined.

(** C2 at vertex 3 of the sample network with capillary pressure 0.5. *)
Lemma windkessel_residual_and_outflow_witness :
  let A_out := ns_A_out (windkessel_newton Sample.pow Sample.data 4 0.5 1) in
  cached_flux (self (Sample.after_init 0.5 (Sample.at_rest 0.5))) true 2 =
  (spec_Q_out Sample.pow 2 1 1 0.5 true A_out, A_out).
Proof.
  pose proof (windkessel_residual_and_outflow Sample.pow Sample.calculate_W1_value
                Sample.calculate_W2_value Sample.solve_W12 Sample.assemble_in_flow
                Sample.solve_at_nfurcation Sample.update_ghost_layer
                Sample.evaluate_dof_at_boundary_points Sample.extract_dof
                Sample.graph Sample.dof_map sample_graph_consistent
                0.5%float (Sample.at_rest 0.5) 3 Sample.fresh
                (Sample.after_init 0.5 (Sample.at_rest 0.5))
                sample_fresh_sized (sample_active 3 ltac:(lia))) as H.
  discharge H by reflexivity.
  discharge H by reflexivity.
  discharge H by by_evaluation.
  cbv zeta in H. destruct H as (_ & _ & H).
  vm_compute in H. vm_compute. exact H.
Defined.

(** C8 on edge 1 of the sample network in the flowing state: micro-vertex 1
    is the only internal one. *)
Lemma macro_edge_fluxes_witness :
  exists Q_up A_up : list double,
    Sample.get_fluxes_on_macro_edge 0.5 (get_edge Sample.graph 1) Sample.flowing
      [0; 0; 0]%float [0; 0; 0]%float (Sample.after_init 0.5 Sample.flowing)
    = (Ok (Q_up, A_up), Sample.after_init 0.5 Sample.flowing) /\
    (vec_get Q_up 1, vec_get A_up 1) =
      Sample.solve_W12 (Sample.calculate_W1_value 0 1 2 1 1)
        (Sample.calculate_W2_value 0.5 1.25 2 1 1) 2 1 1 /\
    (vec_get Q_up 0, vec_get A_up 0) = (0.5%float, 1.25%float) /\
    (vec_get Q_up 2, vec_get A_up 2) = (0%float, 1%float).
Proof.
  exists [0.5; 0.42612302636911958; 0]%float, [1.25; 1.3538781383999541; 1]%float.
  unfold Sample.get_fluxes_on_macro_edge.
  pose proof (macro_edge_fluxes Sample.calculate_W1_value Sample.calculate_W2_value
                Sample.solve_W12 Sample.evaluate_dof_at_quadrature_points Sample.extract_dof
                Sample.dof_map 0.5%float (get_edge Sample.graph 1) Sample.flowing
                [0; 0; 0]%float [0; 0; 0]%float
                [0.5; 0.42612302636911958; 0]%float [1.25; 1.3538781383999541; 1]%float
                (Sample.after_init 0.5 Sample.flowing) (Sample.after_init 0.5 Sample.flowing))
    as H.
  match type of H with ?A -> _ => assert (Hrun : A) by by_evaluation end.
  specialize (H Hrun). split; [exact Hrun|].
  cbv zeta in H.
  discharge H by (simpl; lia).
  destruct H as (Hi & Hfirst & Hlast & _).
  specialize (Hi 1). discharge Hi by (simpl; lia).
  split; [|split].
  - vm_compute in Hi. vm_compute. exact Hi.
  - vm_compute in Hfirst. vm_compute. exact Hfirst.
  - vm_compute in Hlast. vm_compute. exact Hlast.
Defined.

(** ** Where the code departs from the specification *)

Lemma forallb_seq (P : nat -> bool) (n : nat) :
  forallb P (seq 0 n) = true -> forall j, j < n -> P j = true.
Proof.
  intros H j Hj. rewrite forallb_forall in H. apply H, in_seq. lia.
Qed.

(** C1 as stated, refuted on the sample network at rest (W = 4, A = A0 = 1,
    G0 = 2, rho = 1) at its Windkessel vertex.
    (1) With capillary pressure 0.5 the code makes 78 steps and caches
    1.2394726654481885. None of the iterates 0..250 of the iteration with
    relaxation factor 0.5 is that area, so the claimed iteration does not give
    it; with factor 0.25 it does, the residual at [A] being 0.5: here the
    factor alone separates the claim from the code.
    (2) With capillary pressure 1e-11 the residual at [A] itself is about
    1e-11, within the tolerance: "starting from A and stopping as soon as the
    residual is at most the tolerance" gives [A = 1] back. The code examines
    the residual only after a step, takes one, and caches an area other
    than 1. *)
Lemma newton_step_precedes_the_test :
  ~ stops_as_soon_as_within 0.5 1.0e-10 250
      (windkessel_f Sample.pow Sample.data 4 0.5)
      (windkessel_df Sample.pow Sample.data 4 0.5) 1
      (snd (cached_flux (self (Sample.after_init 0.5 (Sample.at_rest 0.5))) true 2)) /\
  stops_as_soon_as_within 0.25 1.0e-10 250
      (windkessel_f Sample.pow Sample.data 4 0.5)
      (windkessel_df Sample.pow Sample.data 4 0.5) 1
      (snd (cached_flux (self (Sample.after_init 0.5 (Sample.at_rest 0.5))) true 2)) /\
  (PrimFloat.abs (windkessel_f Sample.pow Sample.data 4 1e-11 1) <=? 1.0e-10)%float = true /\
  snd (cached_flux (self (Sample.after_init 0.5 (Sample.at_rest 1e-11))) true 2) <> 1%float /\
  ~ stops_as_soon_as_within 0.25 1.0e-10 250
      (windkessel_f Sample.pow Sample.data 4 1e-11)
      (windkessel_df Sample.pow Sample.data 4 1e-11) 1
      (snd (cached_flux (self (Sample.after_init 0.5 (Sample.at_rest 1e-11))) true 2)).
Proof.
  assert (snd (cached_flux (self (Sample.after_init 0.5 (Sample.at_rest 0.5))) true 2)
          = 1.2394726654481885%float) as Hfar by by_evaluation.
  assert (snd (cached_flux (self (Sample.after_init 0.5 (Sample.at_rest 1e-11))) true 2)
          = 1.0000000000012499%float) as Hnear by by_evaluation.
  rewrite Hfar, Hnear.
  split; [|split; [|split; [|split]]].
  - intros (k & Hk & HA & _).
    assert (forallb
              (fun k => negb (damped_iterate 0.5
                                (windkessel_f Sample.pow Sample.data 4 0.5)
                                (windkessel_df Sample.pow Sample.data 4 0.5) 1 k
                              =? 1.2394726654481885)%float)
              (seq 0 251) = true) as Hnever by by_evaluation.
    pose proof (forallb_seq _ _ Hnever k ltac:(lia)) as Hk'. cbv beta in Hk'.
    rewrite <- HA in Hk'. vm_compute in Hk'. discriminate.
  - exists 78. split; [lia|]. split; [by_evaluation|]. split; [|right; by_evaluation].
    intros j Hj.
    assert (forallb
              (fun j => negb (PrimFloat.abs
                                (windkessel_f Sample.pow Sample.data 4 0.5
                                   (damped_iterate 0.25
                                      (windkessel_f Sample.pow Sample.data 4 0.5)
                                      (windkessel_df Sample.pow Sample.data 4 0.5) 1 j))
                              <=? 1.0e-10)%float)
              (seq 0 78) = true) as Hbefore by by_evaluation.
    pose proof (forallb_seq _ _ Hbefore j Hj) as Hj'. cbv beta in Hj'.
    now apply negb_true_iff in Hj'.
  - by_evaluation.
  - intros H. apply (f_equal (fun x => (x =? 1)%float)) in H. vm_compute in H. discriminate.
  - intros (k & Hk & HA & Hbefore & _). destruct k as [|k].
    + apply (f_equal (fun x => (x =? 1)%float)) in HA. vm_compute in HA. discriminate.
    + specialize (Hbefore 0 ltac:(lia)). vm_compute in Hbefore. discriminate.
Qed.

(** C9, the code at two inputs the Windkessel branch can receive.
    (1) With W = 4, p_c = -1.875 and A = 1 (the sample network at rest) the
    loop makes one iteration, reaches an area with a NaN residual - not within
    the tolerance - and stops; nothing is written to [std::cerr], [init]
    returns normally and caches the pair (NaN, -2.75).
    (2) With W = 5, p_c = 4 and A = 2^-52 the residual first falls within the
    tolerance at the 250th iteration; the loop has converged, and the warning
    is written all the same. *)
Theorem newton_warning_misses_non_convergence :
  (let s := windkessel_newton Sample.pow Sample.data 4 (-1.875) 1 in
   ns_num_iter s = 1%Z /\
   PrimFloat.is_nan (ns_error s) = true /\
   (ns_error s <=? TOL)%float = false /\
   ns_cerr s = [] /\
   Sample.init 0.5 (Sample.at_rest (-1.875)) Sample.fresh
     = (Ok tt, Sample.after_init 0.5 (Sample.at_rest (-1.875))) /\
   cerr (Sample.after_init 0.5 (Sample.at_rest (-1.875))) = [] /\
   cached_flux (self (Sample.after_init 0.5 (Sample.at_rest (-1.875)))) true 2
     = (nan, (-2.75)%float)) /\
  (let s := windkessel_newton Sample.pow Sample.data 5 4 0x1p-52%float in
   ns_num_iter s = 250%Z /\
   (ns_error s <=? TOL)%float = true /\
   ns_cerr s = [newton_warning]).
Proof.
  cbv zeta. split.
  - split; [by_evaluation|]. split; [by_evaluation|]. split; [by_evaluation|].
    split; [by_evaluation|]. split; [by_evaluation|]. split; by_evaluation.
  - split; [by_evaluation|]. split; by_evaluation.
Qed.

(** * Further properties of the evaluator *)

(** ** The Newton solve of the Windkessel outflow *)

Lemma SFcompare_refl_not_nan (x : spec_float) :
  SFcompare x x = Some Eq \/ x = S754_nan.
Proof.
  destruct x as [s|s| |s m e]; simpl; auto; left.
  - now destruct s.
  - destruct s; rewrite Z.compare_refl, Pos.compare_cont_refl; reflexivity.
Qed.

Lemma is_nan_Prim2SF (x : double) : PrimFloat.is_nan x = true -> Prim2SF x = S754_nan.
Proof.
  unfold PrimFloat.is_nan. rewrite FloatAxioms.eqb_spec. unfold SFeqb.
  destruct (SFcompare_refl_not_nan (Prim2SF x)) as [H|H]; [rewrite H; discriminate|auto].
Qed.

Lemma ltb_nan_r (x y : double) : PrimFloat.is_nan y = true -> (x <? y)%float = false.
Proof.
  intros H. rewrite FloatAxioms.ltb_spec, (is_nan_Prim2SF y H). unfold SFltb.
  now destruct (Prim2SF x).
Qed.

(** X1. The Newton solve of the Windkessel outflow makes between 1 and 250
    iterations; the error it ends with is the absolute residual at the area it
    returns; when it stops before the 250th iteration the residual is not
    above the tolerance; and it writes the warning exactly when it has made
    250 iterations. *)
Theorem windkessel_newton_summary (pow : double -> double -> double) (param : PhysicalData)
    (W p_c A : double) :
  let s := windkessel_newton pow param W p_c A in
  (1 <= ns_num_iter s <= 250)%Z /\
  ns_error s = PrimFloat.abs (windkessel_f pow param W p_c (ns_A_out s)) /\
  (ns_num_iter s = 250%Z \/ (TOL <? ns_error s)%float = false) /\
  ns_cerr s = (if (ns_num_iter s =? 250)%Z then [newton_warning] else []).
Proof.
  cbv zeta. unfold windkessel_newton.
  destruct (newton_loop_run (windkessel_f pow param W p_c) (windkessel_df pow param W p_c) A)
    as (k & Hk & (HA & He & Hn & Hc) & _ & Hstop).
  rewrite Hn, He, HA, Hc. split; [lia|]. split; [reflexivity|]. split; [|reflexivity].
  destruct Hstop as [->|Hstop]; [left; reflexivity | right; exact Hstop].
Qed.

(** X2. A NaN residual ends the Newton solve: when the residual at the [j]-th
    iterate is NaN and the earlier ones were above the tolerance, the solve
    returns the [j]-th iterate with a NaN error, and without the warning
    unless [j] is 250. *)
Theorem windkessel_newton_stops_at_nan (pow : double -> double -> double)
    (param : PhysicalData) (W p_c A : double) (j : nat) :
  let f := windkessel_f pow param W p_c in
  let df := windkessel_df pow param W p_c in
  let s := windkessel_newton pow param W p_c A in
  1 <= j <= 250 ->
  PrimFloat.is_nan (PrimFloat.abs (f (damped_iterate omega f df A j))) = true ->
  (forall i, 1 <= i < j ->
     (TOL <? PrimFloat.abs (f (damped_iterate omega f df A i)))%float = true) ->
  ns_A_out s = damped_iterate omega f df A j /\
  ns_num_iter s = Z.of_nat j /\
  PrimFloat.is_nan (ns_error s) = true /\
  ns_cerr s = (if (Z.of_nat j =? 250)%Z then [newton_warning] else []).
Proof.
  intros f df s Hj Hnan Hbefore. unfold s, windkessel_newton. fold f df.
  destruct (newton_loop_run f df A) as (k & Hk & (HA & He & Hn & Hc) & Hk_before & Hstop).
  assert (k = j) as ->.
  { destruct (Nat.lt_trichotomy k j) as [Hlt|[Heq|Hgt]]; [|exact Heq|].
    - destruct Hstop as [->|Hstop]; [lia|]. rewrite Hbefore in Hstop by lia. discriminate.
    - specialize (Hk_before j ltac:(lia)).
      rewrite (ltb_nan_r _ _ Hnan) in Hk_before. discriminate. }
  rewrite HA, Hn, He, Hc. split; [reflexivity|]. split; [reflexivity|]. split; [exact Hnan|reflexivity].
Qed.

(** ** The passes of [init] and the accessors *)

Section EvaluatorExtras.

Context (pow : double -> double -> double)
        (calculate_W1_value calculate_W2_value :
           double -> double -> double -> double -> double -> double)
        (solve_W12 : double -> double -> double -> double -> double -> double * double)
        (assemble_in_flow :
           double -> double -> bool -> double -> double -> double -> double -> double)
        (solve_at_nfurcation :
           list double -> list double -> list VesselParameters -> list bool ->
           list double * list double -> list double * list double)
        (update_ghost_layer : list double -> list double)
        (evaluate_dof_at_boundary_points : nat -> double -> list double -> double * double)
        (evaluate_dof_at_quadrature_points : nat -> double -> list double -> list double)
        (extract_dof : list nat -> list double -> list double)
        (d_graph : GraphStorage) (d_dof_map : DofMap).

Local Abbreviation inout_vertex :=
  (inout_vertex pow calculate_W1_value calculate_W2_value solve_W12 assemble_in_flow
     d_graph d_dof_map).
Local Abbreviation calculate_inout_fluxes :=
  (calculate_inout_fluxes pow calculate_W1_value calculate_W2_value solve_W12
     assemble_in_flow d_graph d_dof_map).
Local Abbreviation nfurcation_vertex := (nfurcation_vertex solve_at_nfurcation d_graph).
Local Abbreviation calculate_nfurcation_fluxes :=
  (calculate_nfurcation_fluxes solve_at_nfurcation d_graph).
Local Abbreviation evaluate_edge_boundary_values :=
  (evaluate_edge_boundary_values evaluate_dof_at_boundary_points extract_dof d_graph d_dof_map).
Local Abbreviation evaluate_macro_edge_boundary_values :=
  (evaluate_macro_edge_boundary_values evaluate_dof_at_boundary_points extract_dof
     d_graph d_dof_map).
Local Abbreviation get_fluxes_on_macro_edge :=
  (get_fluxes_on_macro_edge calculate_W1_value calculate_W2_value solve_W12
     evaluate_dof_at_quadrature_points extract_dof d_dof_map).
Local Abbreviation get_fluxes_on_nfurcation := (get_fluxes_on_nfurcation d_graph).
Local Abbreviation micro_vertex_upwind :=
  (micro_vertex_upwind calculate_W1_value calculate_W2_value solve_W12
     evaluate_dof_at_quadrature_points extract_dof d_dof_map).
Local Abbreviation upwind_interior :=
  (upwind_interior calculate_W1_value calculate_W2_value solve_W12
     evaluate_dof_at_quadrature_points extract_dof d_dof_map).
Local Abbreviation after_exchange :=
  (after_exchange update_ghost_layer evaluate_dof_at_boundary_points extract_dof
     d_graph d_dof_map).
Local Abbreviation init :=
  (init pow calculate_W1_value calculate_W2_value solve_W12 assemble_in_flow
     solve_at_nfurcation update_ghost_layer evaluate_dof_at_boundary_points extract_dof
     d_graph d_dof_map).
Local Abbreviation macro_edge_entry :=
  (macro_edge_entry calculate_W1_value calculate_W2_value solve_W12
     evaluate_dof_at_quadrature_points extract_dof d_dof_map).
Local Abbreviation reachable :=
  (reachable pow calculate_W1_value calculate_W2_value solve_W12 assemble_in_flow
     solve_at_nfurcation update_ghost_layer evaluate_dof_at_boundary_points
     evaluate_dof_at_quadrature_points extract_dof d_graph d_dof_map).


(** *** Outcome of [init] *)

Lemma inout_vertex_outcome (t : double) (u_prev : list double) (x : nat) (w : World) :
  let vertex := get_vertex d_graph x in
  fst (inout_vertex t u_prev x w) =
  if is_leaf vertex then
    if is_inflow vertex then Ok tt
    else if is_free_outflow vertex then Ok tt
    else if is_windkessel_outflow vertex then
      if Nat.eqb (num_local_dof (get_local_dof_map_vertex d_dof_map vertex)) 1
      then Ok tt else AssertionFailed
    else Throw undefined_boundary_type
  else Ok tt.
Proof.
  cbv zeta. unfold inout_vertex.
  destruct (is_leaf _); [|reflexivity].
  unfold bind at 1 2, gets at 1 2. cbv beta iota.
  destruct (is_inflow _); [apply set_flux_frame|].
  destruct (is_free_outflow _); [apply set_flux_frame|].
  destruct (is_windkessel_outflow _); [|reflexivity].
  unfold bind, assert_. destruct (Nat.eqb _ 1); [|reflexivity].
  unfold print_cerr at 1. cbv beta iota. apply set_flux_frame.
Qed.

Lemma for_each_inout_outcome (t : double) (u_prev : list double) (l : list nat) (w : World) :
  (forall x, x ∈ l ->
     is_leaf (get_vertex d_graph x) = true ->
     is_windkessel_outflow (get_vertex d_graph x) = true ->
     num_local_dof (get_local_dof_map_vertex d_dof_map (get_vertex d_graph x)) = 1) ->
  fst (for_each l (inout_vertex t u_prev) w)
  = if forallb (fun x => leaf_kind_known (get_vertex d_graph x)) l
    then Ok tt else Throw undefined_boundary_type.
Proof.
  revert w. induction l as [|x l IH]; intros w Hdof; [reflexivity|].
  rewrite for_each_cons. cbn [forallb].
  pose proof (inout_vertex_outcome t u_prev x w) as Hx. cbv zeta in Hx.
  specialize (Hdof x (list_elem_of_here x l)) as Hone.
  assert (forall y, y ∈ l ->
            is_leaf (get_vertex d_graph y) = true ->
            is_windkessel_outflow (get_vertex d_graph y) = true ->
            num_local_dof (get_local_dof_map_vertex d_dof_map (get_vertex d_graph y)) = 1)
    as Hrest by (intros y Hy; apply Hdof; now apply elem_of_cons; right).
  unfold leaf_kind_known at 1.
  destruct (inout_vertex t u_prev x w) as [r w1]. cbn [fst] in Hx. subst r.
  destruct (is_leaf (get_vertex d_graph x)); cbn [negb orb andb]; [|now apply IH].
  destruct (is_inflow (get_vertex d_graph x)); cbn [orb andb]; [now apply IH|].
  destruct (is_free_outflow (get_vertex d_graph x)); cbn [orb andb]; [now apply IH|].
  destruct (is_windkessel_outflow (get_vertex d_graph x)); cbn [orb andb]; [|reflexivity].
  rewrite (Hone eq_refl eq_refl). cbn [Nat.eqb]. now apply IH.
Qed.

(** X3. When every active Windkessel leaf has its single dof - what the
    assertion ahead of the Windkessel solve states, so that builds with and
    without assertions do the same - [init] returns normally if every active
    leaf vertex is a prescribed inflow, a free outflow or a Windkessel outflow,
    and throws "undefined boundary type!" otherwise. Neither the time, nor the
    solution, nor the state of the evaluator matter. *)
Theorem init_outcome (t : double) (u_prev : list double) (w : World) :
  (forall x, x ∈ get_active_vertex_ids d_graph ->
     is_leaf (get_vertex d_graph x) = true ->
     is_windkessel_outflow (get_vertex d_graph x) = true ->
     num_local_dof (get_local_dof_map_vertex d_dof_map (get_vertex d_graph x)) = 1) ->
  fst (init t u_prev w)
  = if forallb (fun x => leaf_kind_known (get_vertex d_graph x))
         (get_active_vertex_ids d_graph)
    then Ok tt else Throw undefined_boundary_type.
Proof.
  intros Hdof. rewrite init_after_nfurcation. unfold calculate_inout_fluxes.
  now apply for_each_inout_outcome.
Qed.

(** *** What [init] keeps *)

Lemma set_flux_cerr (in_ : bool) (id : nat) (Q A : double) (w : World) :
  cerr (snd (set_flux in_ id Q A w)) = cerr w.
Proof. now destruct in_. Qed.

Lemma nfurcation_vertex_cerr (u_prev : list double) (x : nat) (w : World) :
  cerr (snd (nfurcation_vertex u_prev x w)) = cerr w.
Proof.
  unfold nfurcation_vertex. destruct (negb _); [reflexivity|].
  unfold bind at 1 2, gets at 1 2. cbv beta iota.
  apply (for_each_rel (fun w1 w2 => cerr w2 = cerr w1)); [reflexivity|congruence|].
  intros [edge idx] w0. apply set_flux_cerr.
Qed.

Lemma calculate_nfurcation_fluxes_cerr (u_prev : list double) (w : World) :
  cerr (snd (calculate_nfurcation_fluxes u_prev w)) = cerr w.
Proof.
  unfold calculate_nfurcation_fluxes.
  apply (for_each_rel (fun w1 w2 => cerr w2 = cerr w1)); [reflexivity|congruence|].
  intros x w0. apply nfurcation_vertex_cerr.
Qed.

Lemma inout_vertex_cerr (t : double) (u_prev : list double) (x : nat) (w : World) :
  exists n, n <= 1 /\
    cerr (snd (inout_vertex t u_prev x w)) = cerr w ++ replicate n newton_warning.
Proof.
  assert (exists n, n <= 1 /\ cerr w = cerr w ++ replicate n newton_warning) as Hnone.
  { exists 0. split; [lia|]. now rewrite app_nil_r. }
  unfold inout_vertex.
  destruct (is_leaf _); [|exact Hnone].
  unfold bind at 1 2, gets at 1 2. cbv beta iota.
  destruct (is_inflow _); [now rewrite set_flux_cerr|].
  destruct (is_free_outflow _); [now rewrite set_flux_cerr|].
  destruct (is_windkessel_outflow _); [|exact Hnone].
  unfold bind, assert_. destruct (Nat.eqb _ 1); [|exact Hnone].
  unfold print_cerr at 1. cbv beta iota. rewrite set_flux_cerr. cbn [cerr].
  unfold windkessel_newton. rewrite newton_warning_iff_cap.
  destruct (_ =? max_iter)%Z; [exists 1 | exists 0]; split; try lia; reflexivity.
Qed.

Lemma for_each_inout_cerr (t : double) (u_prev : list double) (l : list nat) (w : World) :
  exists n, n <= List.length l /\
    cerr (snd (for_each l (inout_vertex t u_prev) w)) = cerr w ++ replicate n newton_warning.
Proof.
  revert w. induction l as [|x l IH]; intros w.
  - exists 0. split; [simpl; lia|]. simpl. now rewrite app_nil_r.
  - rewrite for_each_cons.
    destruct (inout_vertex_cerr t u_prev x w) as (n1 & Hn1 & H1).
    destruct (inout_vertex t u_prev x w) as [[[]| |] w1]; simpl in H1.
    + destruct (IH w1) as (n2 & Hn2 & H2). exists (n1 + n2). split; [simpl; lia|].
      rewrite H2, H1, <- app_assoc, replicate_add. reflexivity.
    + exists n1. split; [simpl; lia|]. exact H1.
    + exists n1. split; [simpl; lia|]. exact H1.
Qed.

(** X4. Whatever its outcome, [init] writes nothing to [std::cerr] but the
    Newton warning, at most once per active vertex. *)
Theorem init_writes_only_newton_warnings (t : double) (u_prev : list double) (w : World) :
  exists n, n <= List.length (get_active_vertex_ids d_graph) /\
    cerr (snd (init t u_prev w)) = cerr w ++ replicate n newton_warning.
Proof.
  rewrite init_after_nfurcation. unfold calculate_inout_fluxes.
  destruct (for_each_inout_cerr t u_prev (get_active_vertex_ids d_graph)
              (snd (calculate_nfurcation_fluxes u_prev (after_exchange t u_prev w))))
    as (n & Hn & H).
  exists n. split; [exact Hn|]. rewrite H, calculate_nfurcation_fluxes_cerr.
  unfold after_exchange. cbn [cerr].
  now destruct (evaluate_macro_edge_boundary_values_caches evaluate_dof_at_boundary_points
                  extract_dof d_graph d_dof_map u_prev
                  {| self := set_current_t t (self w); cerr := cerr w |})
    as (_ & _ & _ & _ & _ & ->).
Qed.

Lemma after_exchange_flux_caches (t : double) (u_prev : list double) (w : World) :
  d_Q_macro_edge_flux_l (self (after_exchange t u_prev w)) = d_Q_macro_edge_flux_l (self w) /\
  d_Q_macro_edge_flux_r (self (after_exchange t u_prev w)) = d_Q_macro_edge_flux_r (self w) /\
  d_A_macro_edge_flux_l (self (after_exchange t u_prev w)) = d_A_macro_edge_flux_l (self w) /\
  d_A_macro_edge_flux_r (self (after_exchange t u_prev w)) = d_A_macro_edge_flux_r (self w).
Proof.
  destruct (evaluate_macro_edge_boundary_values_caches evaluate_dof_at_boundary_points
              extract_dof d_graph d_dof_map u_prev
              {| self := set_current_t t (self w); cerr := cerr w |})
    as (_ & a & b & c & d & _).
  unfold after_exchange.
  cbn [self d_Q_macro_edge_flux_l d_Q_macro_edge_flux_r d_A_macro_edge_flux_l
         d_A_macro_edge_flux_r set_A_boundary_value set_Q_boundary_value].
  now rewrite a, b, c, d.
Qed.

(** X5. Whatever its outcome, [init] keeps the number of entries of each of
    the four flux caches. *)
Theorem init_keeps_cache_sizes (t : double) (u_prev : list double) (w : World) :
  let w' := snd (init t u_prev w) in
  List.length (d_Q_macro_edge_flux_l (self w')) = List.length (d_Q_macro_edge_flux_l (self w)) /\
  List.length (d_Q_macro_edge_flux_r (self w')) = List.length (d_Q_macro_edge_flux_r (self w)) /\
  List.length (d_A_macro_edge_flux_l (self w')) = List.length (d_A_macro_edge_flux_l (self w)) /\
  List.length (d_A_macro_edge_flux_r (self w')) = List.length (d_A_macro_edge_flux_r (self w)).
Proof.
  cbv zeta. rewrite init_after_nfurcation.
  destruct (calculate_inout_fluxes_frame pow calculate_W1_value calculate_W2_value solve_W12
              assemble_in_flow d_graph d_dof_map t u_prev
              (snd (calculate_nfurcation_fluxes u_prev (after_exchange t u_prev w))))
    as (_ & _ & -> & -> & -> & ->).
  destruct (calculate_nfurcation_fluxes_frame solve_at_nfurcation d_graph u_prev
              (after_exchange t u_prev w)) as (_ & _ & -> & -> & -> & ->).
  destruct (after_exchange_flux_caches t u_prev w) as (-> & -> & -> & ->).
  now repeat split.
Qed.

Lemma init_flux_sized (t : double) (u_prev : list double) (w : World) :
  flux_sized d_graph (self w) -> flux_sized d_graph (self (snd (init t u_prev w))).
Proof.
  unfold flux_sized. rewrite init_after_nfurcation.
  destruct (calculate_inout_fluxes_frame pow calculate_W1_value calculate_W2_value solve_W12
              assemble_in_flow d_graph d_dof_map t u_prev
              (snd (calculate_nfurcation_fluxes u_prev (after_exchange t u_prev w))))
    as (_ & _ & -> & -> & -> & ->).
  destruct (calculate_nfurcation_fluxes_frame solve_at_nfurcation d_graph u_prev
              (after_exchange t u_prev w)) as (_ & _ & -> & -> & -> & ->).
  now destruct (after_exchange_flux_caches t u_prev w) as (-> & -> & -> & ->).
Qed.

(** X6. From its construction on, through any sequence of calls of [init]
    and of the two accessors, whether they return or throw, each of the four
    flux caches of the evaluator has one entry per edge of the graph. *)
Theorem cache_sizes_invariant (w : World) :
  reachable w -> flux_sized d_graph (self w).
Proof.
  induction 1 as [log|t u_prev w _ IH|t edge u_prev Q_up A_up w _ IH|t v Q_up A_up w _ IH].
  - unfold flux_sized, FlowUpwindEvaluator_new. cbn. now rewrite !length_replicate.
  - now apply init_flux_sized.
  - now rewrite (proj2 (get_fluxes_on_macro_edge_guard calculate_W1_value calculate_W2_value
                          solve_W12 evaluate_dof_at_quadrature_points extract_dof d_dof_map
                          t edge u_prev Q_up A_up w)).
  - now rewrite (proj2 (get_fluxes_on_nfurcation_guard d_graph t v Q_up A_up w)).
Qed.

(** *** Slots of the flux caches that a pass leaves alone *)

Lemma inout_vertex_slot_frame (t : double) (u_prev : list double) (x : nat) (w : World)
    (in_ : bool) (id : nat) :
  (is_leaf (get_vertex d_graph x) = true ->
   (leaf_in d_graph x, e_id (leaf_edge d_graph x)) <> (in_, id)) ->
  cached_flux (self (snd (inout_vertex t u_prev x w))) in_ id = cached_flux (self w) in_ id.
Proof.
  intros Hslot. unfold inout_vertex.
  destruct (is_leaf (get_vertex d_graph x)); [|reflexivity].
  specialize (Hslot eq_refl).
  unfold bind at 1 2, gets at 1 2. cbv beta iota.
  destruct (is_inflow _); [now apply set_flux_other|].
  destruct (is_free_outflow _); [now apply set_flux_other|].
  destruct (is_windkessel_outflow _); [|reflexivity].
  unfold bind, assert_. destruct (Nat.eqb _ 1); [|reflexivity].
  unfold print_cerr at 1. cbv beta iota.
  now rewrite set_flux_other.
Qed.

Lemma for_each_slot_frame {A} (body : A -> M unit) (l : list A) (in_ : bool) (id : nat) :
  (forall x w, x ∈ l ->
     cached_flux (self (snd (body x w))) in_ id = cached_flux (self w) in_ id) ->
  forall w, cached_flux (self (snd (for_each l body w))) in_ id = cached_flux (self w) in_ id.
Proof.
  induction l as [|x l IH]; intros Hbody w; [reflexivity|].
  rewrite for_each_cons.
  pose proof (Hbody x w (list_elem_of_here x l)) as Hx.
  destruct (body x w) as [[[]| |] w1]; simpl in Hx |- *; try exact Hx.
  rewrite IH; [exact Hx|]. intros y w0 Hy. apply Hbody. now apply elem_of_cons; right.
Qed.

Lemma nfurcation_vertex_slot_frame (u_prev : list double) (x : nat) (w : World)
    (in_ : bool) (id : nat) :
  (is_bifurcation (get_vertex d_graph x) = true ->
   forall e, e ∈ v_edge_neighbors (get_vertex d_graph x) ->
     (is_pointing_to (get_edge d_graph e) (v_id (get_vertex d_graph x)),
      e_id (get_edge d_graph e)) <> (in_, id)) ->
  cached_flux (self (snd (nfurcation_vertex u_prev x w))) in_ id = cached_flux (self w) in_ id.
Proof.
  intros Hslot. unfold nfurcation_vertex.
  destruct (is_bifurcation (get_vertex d_graph x)); [|reflexivity].
  specialize (Hslot eq_refl). cbn [negb].
  unfold bind at 1 2, gets at 1 2. cbv beta iota.
  apply for_each_slot_frame. intros [edge idx] w0 Hin.
  apply elem_of_zip_l, list_elem_of_fmap in Hin as (e & -> & He).
  apply set_flux_other. now apply Hslot.
Qed.

(** X7. [init] leaves alone every slot of the flux caches that is neither the
    slot of an active leaf vertex nor the near end of an edge of an active
    bifurcation - for instance the far end of an edge whose other vertex
    belongs to another worker. *)
Theorem init_leaves_other_slots (t : double) (u_prev : list double) (w : World)
    (in_ : bool) (id : nat) :
  (forall x, x ∈ get_active_vertex_ids d_graph ->
     is_leaf (get_vertex d_graph x) = true ->
     (leaf_in d_graph x, e_id (leaf_edge d_graph x)) <> (in_, id)) ->
  (forall x e, x ∈ get_active_vertex_ids d_graph ->
     is_bifurcation (get_vertex d_graph x) = true ->
     e ∈ v_edge_neighbors (get_vertex d_graph x) ->
     (is_pointing_to (get_edge d_graph e) (v_id (get_vertex d_graph x)),
      e_id (get_edge d_graph e)) <> (in_, id)) ->
  cached_flux (self (snd (init t u_prev w))) in_ id = cached_flux (self w) in_ id.
Proof.
  intros Hleaf Hbif. rewrite init_after_nfurcation.
  unfold calculate_inout_fluxes, calculate_nfurcation_fluxes.
  rewrite for_each_slot_frame.
  2: { intros x w0 Hx. apply inout_vertex_slot_frame. now apply Hleaf. }
  rewrite for_each_slot_frame.
  2: { intros x w0 Hx. apply nfurcation_vertex_slot_frame. intros Hb e He.
       now apply (Hbif x e). }
  unfold cached_flux.
  destruct (evaluate_macro_edge_boundary_values_caches evaluate_dof_at_boundary_points
              extract_dof d_graph d_dof_map u_prev
              {| self := set_current_t t (self w); cerr := cerr w |})
    as (_ & a & b & c & d & _).
  unfold after_exchange.
  cbn [self d_Q_macro_edge_flux_l d_Q_macro_edge_flux_r d_A_macro_edge_flux_l
         d_A_macro_edge_flux_r set_A_boundary_value set_Q_boundary_value].
  now rewrite a, b, c, d.
Qed.

(** *** Extraction of the boundary values *)

Lemma evaluate_edge_boundary_values_run (u_prev : list double) (x : nat) (w : World) :
  let edge := get_edge d_graph x in
  let param := e_physical_data edge in
  let local_dof_map := get_local_dof_map d_dof_map edge in
  let h := (length param / double_of_size (num_micro_edges local_dof_map))%float in
  let degree := size_sub (num_basis_functions local_dof_map) 1 in
  let last := size_sub (num_micro_edges local_dof_map) 1 in
  let at_boundary micro_edge component :=
    evaluate_dof_at_boundary_points degree h
      (extract_dof (edge_dof_indices local_dof_map micro_edge component) u_prev) in
  let w' := snd (evaluate_edge_boundary_values u_prev x w) in
  d_Q_macro_edge_boundary_value (self w') =
    <[2 * e_id edge + 1 := snd (at_boundary last 0)]>
      (<[2 * e_id edge := fst (at_boundary 0 0)]> (d_Q_macro_edge_boundary_value (self w))) /\
  d_A_macro_edge_boundary_value (self w') =
    <[2 * e_id edge + 1 := snd (at_boundary last 1)]>
      (<[2 * e_id edge := fst (at_boundary 0 1)]> (d_A_macro_edge_boundary_value (self w))).
Proof. split; reflexivity. Qed.

Lemma evaluate_edge_boundary_values_other (u_prev : list double) (x : nat) (w : World) (j : nat) :
  j <> 2 * e_id (get_edge d_graph x) -> j <> 2 * e_id (get_edge d_graph x) + 1 ->
  let w' := snd (evaluate_edge_boundary_values u_prev x w) in
  d_Q_macro_edge_boundary_value (self w') !! j = d_Q_macro_edge_boundary_value (self w) !! j /\
  d_A_macro_edge_boundary_value (self w') !! j = d_A_macro_edge_boundary_value (self w) !! j.
Proof.
  intros H1 H2. cbv zeta.
  destruct (evaluate_edge_boundary_values_run u_prev x w) as [-> ->].
  rewrite !list_lookup_insert_ne by congruence. now split.
Qed.

Lemma evaluate_edge_boundary_values_length (u_prev : list double) (x : nat) (w : World) :
  let w' := snd (evaluate_edge_boundary_values u_prev x w) in
  List.length (d_Q_macro_edge_boundary_value (self w')) =
    List.length (d_Q_macro_edge_boundary_value (self w)) /\
  List.length (d_A_macro_edge_boundary_value (self w')) =
    List.length (d_A_macro_edge_boundary_value (self w)).
Proof.
  cbv zeta. destruct (evaluate_edge_boundary_values_run u_prev x w) as [-> ->].
  now rewrite !length_insert.
Qed.

Lemma for_each_extraction_other (u_prev : list double) (l : list nat) (w : World) (j : nat) :
  (forall x, x ∈ l ->
     j <> 2 * e_id (get_edge d_graph x) /\ j <> 2 * e_id (get_edge d_graph x) + 1) ->
  let w' := snd (for_each l (evaluate_edge_boundary_values u_prev) w) in
  List.length (d_Q_macro_edge_boundary_value (self w')) =
    List.length (d_Q_macro_edge_boundary_value (self w)) /\
  List.length (d_A_macro_edge_boundary_value (self w')) =
    List.length (d_A_macro_edge_boundary_value (self w)) /\
  d_Q_macro_edge_boundary_value (self w') !! j = d_Q_macro_edge_boundary_value (self w) !! j /\
  d_A_macro_edge_boundary_value (self w') !! j = d_A_macro_edge_boundary_value (self w) !! j.
Proof.
  cbv zeta. induction l as [|x l IH] in w |- *; intros Hj.
  - now repeat split.
  - rewrite for_each_cons.
    destruct (evaluate_edge_boundary_values_ok evaluate_dof_at_boundary_points extract_dof
                d_graph d_dof_map u_prev x w) as [Hok _].
    destruct (Hj x (list_elem_of_here x l)) as [H1 H2].
    destruct (evaluate_edge_boundary_values_other u_prev x w j H1 H2) as [EQ EA].
    destruct (evaluate_edge_boundary_values_length u_prev x w) as [LQ LA].
    cbv zeta in EQ, EA, LQ, LA.
    destruct (evaluate_edge_boundary_values u_prev x w) as [[[]| |] w1];
      simpl in Hok; try discriminate. cbn [snd] in EQ, EA, LQ, LA.
    destruct (IH w1) as (a & b & c & d).
    { intros y Hy. apply Hj. now apply elem_of_cons; right. }
    rewrite a, b, c, d. now repeat split.
Qed.

(** X8. Boundary-value extraction keeps the sizes of the two buffers and
    changes no entry other than the two slots [2 id] and [2 id + 1] of the
    active edges. *)
Theorem extraction_leaves_other_slots (u_prev : list double) (w : World) (j : nat) :
  (forall x, x ∈ get_active_edge_ids d_graph ->
     j <> 2 * e_id (get_edge d_graph x) /\ j <> 2 * e_id (get_edge d_graph x) + 1) ->
  let w' := snd (evaluate_macro_edge_boundary_values u_prev w) in
  List.length (d_Q_macro_edge_boundary_value (self w')) =
    List.length (d_Q_macro_edge_boundary_value (self w)) /\
  List.length (d_A_macro_edge_boundary_value (self w')) =
    List.length (d_A_macro_edge_boundary_value (self w)) /\
  d_Q_macro_edge_boundary_value (self w') !! j = d_Q_macro_edge_boundary_value (self w) !! j /\
  d_A_macro_edge_boundary_value (self w') !! j = d_A_macro_edge_boundary_value (self w) !! j.
Proof. apply for_each_extraction_other. Qed.

(** X9. After the extraction, the two slots of an active edge hold the traces
    of the previous solution at the two ends of the edge: the left end point
    of its first micro-edge and the right end point of its last one. *)
Theorem extraction_stores_end_traces (u_prev : list double) (e : nat) (w : World) :
  (forall x, x ∈ get_active_edge_ids d_graph -> e_id (get_edge d_graph x) = x) ->
  e ∈ get_active_edge_ids d_graph ->
  2 * e + 1 < List.length (d_Q_macro_edge_boundary_value (self w)) ->
  2 * e + 1 < List.length (d_A_macro_edge_boundary_value (self w)) ->
  let edge := get_edge d_graph e in
  let param := e_physical_data edge in
  let local_dof_map := get_local_dof_map d_dof_map edge in
  let h := (length param / double_of_size (num_micro_edges local_dof_map))%float in
  let degree := size_sub (num_basis_functions local_dof_map) 1 in
  let last := size_sub (num_micro_edges local_dof_map) 1 in
  let at_boundary micro_edge component :=
    evaluate_dof_at_boundary_points degree h
      (extract_dof (edge_dof_indices local_dof_map micro_edge component) u_prev) in
  let w' := snd (evaluate_macro_edge_boundary_values u_prev w) in
  vec_get (d_Q_macro_edge_boundary_value (self w')) (2 * e) = fst (at_boundary 0 0) /\
  vec_get (d_A_macro_edge_boundary_value (self w')) (2 * e) = fst (at_boundary 0 1) /\
  vec_get (d_Q_macro_edge_boundary_value (self w')) (2 * e + 1) = snd (at_boundary last 0) /\
  vec_get (d_A_macro_edge_boundary_value (self w')) (2 * e + 1) = snd (at_boundary last 1).
Proof.
  intros Hid. unfold evaluate_macro_edge_boundary_values. cbv zeta.
  induction (get_active_edge_ids d_graph) as [|x l IH] in w, Hid |- *; intros Hin HQ HA.
  - now apply elem_of_nil in Hin.
  - rewrite for_each_cons.
    destruct (evaluate_edge_boundary_values_ok evaluate_dof_at_boundary_points extract_dof
                d_graph d_dof_map u_prev x w) as [Hok _].
    destruct (evaluate_edge_boundary_values_run u_prev x w) as [RQ RA].
    destruct (evaluate_edge_boundary_values_length u_prev x w) as [LQ LA].
    cbv zeta in RQ, RA, LQ, LA.
    destruct (evaluate_edge_boundary_values u_prev x w) as [[[]| |] w1];
      simpl in Hok; try discriminate. cbn [snd] in RQ, RA, LQ, LA.
    destruct (decide (e ∈ l)) as [Hl|Hl].
    + apply IH; [|exact Hl|lia|lia].
      intros y Hy. apply Hid. now apply elem_of_cons; right.
    + apply elem_of_cons in Hin as [->|Hin]; [|contradiction].
      pose proof (Hid x (list_elem_of_here x l)) as Hx.
      assert (forall y, y ∈ l -> e_id (get_edge d_graph y) = y /\ y <> x) as Hl'.
      { intros y Hy. split; [apply Hid; now apply elem_of_cons; right|].
        intros ->. contradiction. }
      destruct (for_each_extraction_other u_prev l w1 (2 * x)) as (_ & _ & Q0 & A0).
      { intros y Hy. destruct (Hl' y Hy) as [-> Hne]. lia. }
      destruct (for_each_extraction_other u_prev l w1 (2 * x + 1)) as (_ & _ & Q1 & A1).
      { intros y Hy. destruct (Hl' y Hy) as [-> Hne]. lia. }
      cbv zeta in Q0, A0, Q1, A1.
      unfold vec_get. rewrite Q0, A0, Q1, A1, RQ, RA, Hx.
      rewrite !list_lookup_insert_eq by (rewrite ?length_insert; lia).
      rewrite !(list_lookup_insert_ne _ (2 * x + 1) (2 * x)) by lia.
      rewrite !list_lookup_insert_eq by lia.
      now repeat split.
Qed.

(** *** The accessors as functions of the caches *)

Lemma vec_lookup (l : list double) (i : nat) :
  i < List.length l -> l !! i = Some (vec_get l i).
Proof.
  intros Hi. unfold vec_get. destruct (lookup_lt_is_Some_2 l i Hi) as [x ->]. reflexivity.
Qed.

Lemma store_pairs_run {X} (g : X -> double * double) (l : list X) (k : nat)
    (up : list double * list double) :
  List.length (fst up) = k + List.length l ->
  List.length (snd up) = k + List.length l ->
  fold_left
    (fun up '(x, i) => (vec_set (fst up) i (fst (g x)), vec_set (snd up) i (snd (g x))))
    (zip l (seq k (List.length l))) up
  = (take k (fst up) ++ map (fun x => fst (g x)) l,
     take k (snd up) ++ map (fun x => snd (g x)) l).
Proof.
  revert k up. induction l as [|x l IH]; intros k [Q A] HQ HA; cbn [fst snd] in *.
  - cbn. rewrite !app_nil_r, !firstn_all2 by (cbn in *; lia). reflexivity.
  - cbn [List.length seq zip zip_with fold_left fst snd map]. cbn [List.length] in HQ, HA.
    rewrite (IH (S k)); cbn [fst snd]; unfold vec_set.
    + rewrite (take_S_r _ k (fst (g x))) by (apply list_lookup_insert_eq; lia).
      rewrite (take_S_r _ k (snd (g x))) by (apply list_lookup_insert_eq; lia).
      rewrite !take_insert_ge by lia. now rewrite <- !app_assoc.
    + rewrite length_insert. lia.
    + rewrite length_insert. lia.
Qed.

Lemma get_fluxes_on_nfurcation_run (t : double) (v : Vertex) (Q_up A_up : list double)
    (w : World) :
  let QA e_id_ :=
    cached_flux (self w) (is_pointing_to (get_edge d_graph e_id_) (v_id v))
      (e_id (get_edge d_graph e_id_)) in
  fst (get_fluxes_on_nfurcation t v Q_up A_up w)
  = if double_ne (d_current_t (self w)) t then Throw not_initialized
    else Ok (map (fun e_id_ => fst (QA e_id_)) (v_edge_neighbors v),
             map (fun e_id_ => snd (QA e_id_)) (v_edge_neighbors v)).
Proof.
  cbv zeta. unfold get_fluxes_on_nfurcation, bind, gets, throw, ret. cbv beta iota.
  destruct (double_ne (d_current_t (self w)) t); [reflexivity|]. cbn [fst]. f_equal.
  rewrite (store_pairs_run
             (fun e_id_ => cached_flux (self w)
                             (is_pointing_to (get_edge d_graph e_id_) (v_id v))
                             (e_id (get_edge d_graph e_id_)))
             (v_edge_neighbors v) 0).
  - reflexivity.
  - cbn [fst]. now rewrite length_resize.
  - cbn [snd]. now rewrite length_resize.
Qed.

(** X11. [get_fluxes_on_nfurcation] either throws "not initialized", or
    returns, for each edge of the vertex in the order of its edge list, the
    pair cached for the end of that edge next to the vertex: [Q_up] and [A_up]
    come back with one entry per edge, whatever they held and whatever their
    length was. *)
Theorem nfurcation_accessor_reads_caches (t : double) (v : Vertex) (Q_up A_up : list double)
    (w : World) :
  let QA e_id_ :=
    cached_flux (self w) (is_pointing_to (get_edge d_graph e_id_) (v_id v))
      (e_id (get_edge d_graph e_id_)) in
  fst (get_fluxes_on_nfurcation t v Q_up A_up w)
  = if double_ne (d_current_t (self w)) t then Throw not_initialized
    else Ok (map (fun e_id_ => fst (QA e_id_)) (v_edge_neighbors v),
             map (fun e_id_ => snd (QA e_id_)) (v_edge_neighbors v)).
Proof. exact (get_fluxes_on_nfurcation_run t v Q_up A_up w). Qed.

(** X13. Given vectors with one entry per micro-vertex - what its two
    assertions state, so that builds with and without assertions do the
    same - [get_fluxes_on_macro_edge] throws "not initialized" on a time stamp
    that differs and otherwise returns vectors every entry of which it has
    written: nothing of what the vectors held is left, and where they have a
    single entry it is the pair of the right cache. *)
Theorem macro_edge_accessor_outcome (t : double) (edge : Edge) (u_prev : list double)
    (Q_up A_up : list double) (w : World) :
  let n := num_micro_vertices (get_local_dof_map d_dof_map edge) in
  List.length Q_up = n ->
  List.length A_up = n ->
  fst (get_fluxes_on_macro_edge t edge u_prev Q_up A_up w)
  = if double_ne (d_current_t (self w)) t then Throw not_initialized
    else Ok (map (fun i => fst (macro_edge_entry (self w) edge u_prev i)) (seq 0 n),
             map (fun i => snd (macro_edge_entry (self w) edge u_prev i)) (seq 0 n)).
Proof.
  cbv zeta. intros HQ HA.
  unfold get_fluxes_on_macro_edge, bind, gets, throw, assert_, ret. cbv beta iota.
  destruct (double_ne (d_current_t (self w)) t); [reflexivity|].
  set (n := num_micro_vertices (get_local_dof_map d_dof_map edge)) in *.
  rewrite HQ, HA, Nat.eqb_refl.
  cbn [fst]. unfold upwind_interior. fold n.
  pose proof (upwind_interior_step_length calculate_W1_value calculate_W2_value solve_W12
                evaluate_dof_at_quadrature_points extract_dof d_dof_map edge u_prev
                (seq 1 (n - 1 - 1)) (Q_up, A_up)) as Hlen.
  pose proof (fun i => upwind_interior_step_at calculate_W1_value calculate_W2_value solve_W12
                evaluate_dof_at_quadrature_points extract_dof d_dof_map edge u_prev
                (seq 1 (n - 1 - 1)) (Q_up, A_up) i (NoDup_seq _ _)) as Hat.
  cbv zeta in Hlen, Hat. cbn [fst snd] in Hlen, Hat.
  set (r := fold_left _ _ _) in *. destruct Hlen as [HlQ HlA].
  assert (forall i, i < n ->
            (vec_set (vec_set (fst r) 0 (vec_get (d_Q_macro_edge_flux_l (self w)) (e_id edge)))
               (n - 1) (vec_get (d_Q_macro_edge_flux_r (self w)) (e_id edge)) !! i
             = Some (fst (macro_edge_entry (self w) edge u_prev i))) /\
            (vec_set (vec_set (snd r) 0 (vec_get (d_A_macro_edge_flux_l (self w)) (e_id edge)))
               (n - 1) (vec_get (d_A_macro_edge_flux_r (self w)) (e_id edge)) !! i
             = Some (snd (macro_edge_entry (self w) edge u_prev i)))) as Hentry.
  { intros i Hi. unfold macro_edge_entry, vec_set. fold n.
    destruct (Nat.eqb_spec i (n - 1)) as [->|Hlast].
    - cbn [cached_flux fst snd].
      split; apply list_lookup_insert_eq; rewrite length_insert; lia.
    - rewrite !(list_lookup_insert_ne _ (n - 1) i) by lia.
      destruct (Nat.eqb_spec i 0) as [->|Hfirst].
      + cbn [cached_flux fst snd]. split; apply list_lookup_insert_eq; lia.
      + rewrite !(list_lookup_insert_ne _ 0 i) by lia.
        rewrite <- (Hat i) by (try apply elem_of_seq; lia). cbn [fst snd].
        split; apply vec_lookup; lia. }
  f_equal. f_equal.
  - apply list_eq. intros i. rewrite list_lookup_fmap.
    destruct (decide (i < n)) as [Hi|Hi].
    + rewrite (proj1 (Hentry i Hi)). rewrite lookup_seq_lt by lia. reflexivity.
    + rewrite !lookup_ge_None_2; [reflexivity| |].
      * rewrite length_seq. lia.
      * unfold vec_set. rewrite !length_insert. lia.
  - apply list_eq. intros i. rewrite list_lookup_fmap.
    destruct (decide (i < n)) as [Hi|Hi].
    + rewrite (proj2 (Hentry i Hi)). rewrite lookup_seq_lt by lia. reflexivity.
    + rewrite !lookup_ge_None_2; [reflexivity| |].
      * rewrite length_seq. lia.
      * unfold vec_set. rewrite !length_insert. lia.
Qed.


(** *** The junction pass *)

Section Junctions.

Hypothesis Hgraph : graph_consistent d_graph.

(** An end of an edge belongs to one vertex only. *)
Lemma incident_slot_injective (x v e e' : nat) :
  e ∈ v_edge_neighbors (get_vertex d_graph x) ->
  e' ∈ v_edge_neighbors (get_vertex d_graph v) ->
  (is_pointing_to (get_edge d_graph e) (v_id (get_vertex d_graph x)),
   e_id (get_edge d_graph e)) =
  (is_pointing_to (get_edge d_graph e') (v_id (get_vertex d_graph v)),
   e_id (get_edge d_graph e')) ->
  x = v /\ e = e'.
Proof.
  intros Hx Hv [= Hin Hid].
  rewrite !(gc_edge_id _ Hgraph) in Hid. subst e'.
  rewrite !(gc_vertex_id _ Hgraph) in Hin.
  apply (gc_incident _ Hgraph) in Hx, Hv.
  unfold is_pointing_to in Hin. split; [|reflexivity].
  destruct (Nat.eqb_spec (snd (e_vertex_neighbors (get_edge d_graph e))) x) as [E1|E1];
    destruct (Nat.eqb_spec (snd (e_vertex_neighbors (get_edge d_graph e))) v) as [E2|E2];
    try discriminate; [congruence|].
  destruct Hx as [Hx|Hx], Hv as [Hv|Hv]; congruence.
Qed.

(** The stores at the end of the resolution of one junction. *)
Lemma junction_stores_cached (v : nat) (up : list double * list double) (es : list nat)
    (k : nat) (w : World) (i e : nat) :
  NoDup es ->
  (forall e', e' ∈ es -> e' < num_edges d_graph) ->
  flux_sized d_graph (self w) ->
  es !! i = Some e ->
  cached_flux
    (self (snd (for_each (zip (map (get_edge d_graph) es) (seq k (List.length es)))
                  (fun '(edge, vessel_idx) =>
                     set_flux (is_pointing_to edge v) (e_id edge)
                       (vec_get (fst up) vessel_idx) (vec_get (snd up) vessel_idx)) w)))
    (is_pointing_to (get_edge d_graph e) v) e
  = (vec_get (fst up) (k + i), vec_get (snd up) (k + i)).
Proof.
  revert k w i. induction es as [|e0 es IH]; intros k w i Hnodup Hrange Hsz Hi.
  - discriminate.
  - apply NoDup_cons in Hnodup as [Hnotin Hnodup].
    cbn [map List.length seq zip zip_with]. rewrite for_each_cons.
    destruct (set_flux_frame (is_pointing_to (get_edge d_graph e0) v)
                (e_id (get_edge d_graph e0)) (vec_get (fst up) k) (vec_get (snd up) k) w)
      as [Hok Hframe].
    pose proof (set_flux_cached (is_pointing_to (get_edge d_graph e0) v)
                  (e_id (get_edge d_graph e0)) (vec_get (fst up) k) (vec_get (snd up) k) w)
      as Hcached.
    destruct (set_flux _ _ _ _ w) as [[[]| |] w1]; simpl in Hok; try discriminate.
    cbn [snd] in Hframe, Hcached.
    assert (flux_sized d_graph (self w1)) as Hsz1.
    { destruct Hframe as (_ & _ & a & b & c & d), Hsz as (a' & b' & c' & d').
      repeat split; congruence. }
    destruct i as [|i].
    + injection Hi as <-.
      rewrite for_each_slot_frame.
      * replace (k + 0) with k by lia.
        rewrite (gc_edge_id _ Hgraph) in Hcached.
        destruct Hsz as (a & b & c & d).
        assert (e0 < num_edges d_graph) by (apply Hrange, list_elem_of_here).
        apply Hcached; lia.
      * intros [edge idx] w0 Hin.
        apply elem_of_zip_l, list_elem_of_fmap in Hin as (e' & -> & He').
        apply set_flux_other. rewrite (gc_edge_id _ Hgraph).
        intros [= _ ->]. contradiction.
    + replace (k + S i) with (S k + i) by lia.
      apply IH; try assumption.
      intros e' He'. apply Hrange. now apply elem_of_cons; right.
Qed.

Lemma nfurcation_vertex_cached (u_prev : list double) (v : nat) (w : World) (i e : nat) :
  is_bifurcation (get_vertex d_graph v) = true ->
  NoDup (v_edge_neighbors (get_vertex d_graph v)) ->
  flux_sized d_graph (self w) ->
  v_edge_neighbors (get_vertex d_graph v) !! i = Some e ->
  cached_flux (self (snd (nfurcation_vertex u_prev v w))) (is_pointing_to (get_edge d_graph e) v) e
  = (vec_get (fst (junction_solution solve_at_nfurcation d_graph (self w) v)) i,
     vec_get (snd (junction_solution solve_at_nfurcation d_graph (self w) v)) i).
Proof.
  intros Hbif Hnodup Hsz Hi. unfold nfurcation_vertex. rewrite Hbif. cbn [negb].
  unfold bind at 1 2, gets at 1 2. cbv beta iota.
  rewrite (gc_vertex_id _ Hgraph).
  rewrite (junction_stores_cached v _ _ 0 w i e Hnodup); try assumption.
  - unfold junction_solution. rewrite (gc_vertex_id _ Hgraph). reflexivity.
  - intros e' He'. now apply (gc_edge_range _ Hgraph v).
Qed.


Lemma slot_ids (e v : nat) :
  (is_pointing_to (get_edge d_graph e) (v_id (get_vertex d_graph v)),
   e_id (get_edge d_graph e))
  = (is_pointing_to (get_edge d_graph e) v, e).
Proof. now rewrite (gc_edge_id _ Hgraph), (gc_vertex_id _ Hgraph). Qed.

Lemma junction_solution_frame (v : nat) (s1 s2 : FlowUpwindEvaluator) :
  boundary_values s2 = boundary_values s1 ->
  junction_solution solve_at_nfurcation d_graph s2 v
  = junction_solution solve_at_nfurcation d_graph s1 v.
Proof. unfold junction_solution. now intros [= -> ->]. Qed.

Lemma for_each_nfurcation_cached (u_prev : list double) (v : nat) (l : list nat) (w : World)
    (i e : nat) :
  is_bifurcation (get_vertex d_graph v) = true ->
  NoDup (v_edge_neighbors (get_vertex d_graph v)) ->
  v_edge_neighbors (get_vertex d_graph v) !! i = Some e ->
  v ∈ l ->
  flux_sized d_graph (self w) ->
  cached_flux (self (snd (for_each l (nfurcation_vertex u_prev) w)))
    (is_pointing_to (get_edge d_graph e) v) e
  = (vec_get (fst (junction_solution solve_at_nfurcation d_graph (self w) v)) i,
     vec_get (snd (junction_solution solve_at_nfurcation d_graph (self w) v)) i).
Proof.
  intros Hbif Hnodup Hi. revert w. induction l as [|x l IH]; intros w Hin Hsz.
  - now apply elem_of_nil in Hin.
  - rewrite for_each_cons.
    pose proof (nfurcation_vertex_frame solve_at_nfurcation d_graph u_prev x w) as Hframe.
    pose proof (nfurcation_vertex_ok solve_at_nfurcation d_graph u_prev x w) as Hok.
    pose proof (nfurcation_vertex_cached u_prev x w i e) as Hcached.
    destruct (nfurcation_vertex u_prev x w) as [[[]| |] w1]; simpl in Hok; try discriminate.
    cbn [snd] in Hframe, Hcached.
    assert (flux_sized d_graph (self w1)) as Hsz1.
    { destruct Hframe as (_ & _ & a & b & c & d), Hsz as (a' & b' & c' & d').
      repeat split; congruence. }
    destruct (decide (v ∈ l)) as [Hl|Hl].
    + rewrite (IH w1 Hl Hsz1). rewrite (junction_solution_frame v (self w) (self w1)).
      * reflexivity.
      * now destruct Hframe as (-> & _).
    + apply elem_of_cons in Hin as [->|Hin]; [|contradiction].
      rewrite for_each_slot_frame; [now apply Hcached|].
      intros y w0 Hy. apply nfurcation_vertex_slot_frame. intros Hb e' He'.
      intros Heq.
      assert (e ∈ v_edge_neighbors (get_vertex d_graph x)) as He
        by (now apply list_elem_of_lookup_2 in Hi).
      rewrite <- (slot_ids e x) in Heq.
      destruct (incident_slot_injective y x e' e He' He Heq) as [-> _]. contradiction.
Qed.

Lemma init_junction_cached (t : double) (u_prev : list double) (v : nat) (w : World)
    (i e : nat) :
  flux_sized d_graph (self w) ->
  v ∈ get_active_vertex_ids d_graph ->
  is_bifurcation (get_vertex d_graph v) = true ->
  is_leaf (get_vertex d_graph v) = false ->
  NoDup (v_edge_neighbors (get_vertex d_graph v)) ->
  v_edge_neighbors (get_vertex d_graph v) !! i = Some e ->
  let w' := snd (init t u_prev w) in
  let up := junction_solution solve_at_nfurcation d_graph (self w') v in
  cached_flux (self w') (is_pointing_to (get_edge d_graph e) v) e
  = (vec_get (fst up) i, vec_get (snd up) i).
Proof.
  intros Hsz Hin Hbif Hnoleaf Hnodup Hi. cbv zeta.
  rewrite init_after_nfurcation. unfold calculate_inout_fluxes.
  set (w2 := after_exchange t u_prev w).
  set (w3 := snd (calculate_nfurcation_fluxes u_prev w2)).
  assert (flux_sized d_graph (self w2)) as Hsz2.
  { destruct (after_exchange_flux_caches t u_prev w) as (a & b & c & d).
    unfold flux_sized, w2. now rewrite a, b, c, d. }
  pose proof (calculate_nfurcation_fluxes_frame solve_at_nfurcation d_graph u_prev w2)
    as Hframe2. fold w3 in Hframe2.
  pose proof (calculate_inout_fluxes_frame pow calculate_W1_value calculate_W2_value solve_W12
                assemble_in_flow d_graph d_dof_map t u_prev w3) as Hframe3.
  unfold calculate_inout_fluxes in Hframe3.
  rewrite (junction_solution_frame v (self w2)
             (self (snd (for_each (get_active_vertex_ids d_graph) (inout_vertex t u_prev) w3))))
    by (destruct Hframe3 as (-> & _); now destruct Hframe2 as (-> & _)).
  rewrite for_each_slot_frame.
  - unfold w3, calculate_nfurcation_fluxes.
    now rewrite (for_each_nfurcation_cached u_prev v _ w2 i e Hbif Hnodup Hi Hin Hsz2).
  - intros x w0 Hx. apply inout_vertex_slot_frame. intros Hleaf Heq.
    assert (e ∈ v_edge_neighbors (get_vertex d_graph v)) as He
      by (now apply list_elem_of_lookup_2 in Hi).
    pose proof (leaf_edge_elem d_graph Hgraph x Hleaf) as Hex.
    unfold leaf_in in Heq.
    assert (leaf_edge d_graph x = get_edge d_graph (e_id (leaf_edge d_graph x))) as Hle.
    { rewrite (leaf_edge_id d_graph Hgraph). reflexivity. }
    rewrite <- (slot_ids e v) in Heq.
    assert ((is_pointing_to (get_edge d_graph (e_id (leaf_edge d_graph x)))
               (v_id (get_vertex d_graph x)),
             e_id (get_edge d_graph (e_id (leaf_edge d_graph x))))
            = (is_pointing_to (leaf_edge d_graph x) (v_id (get_vertex d_graph x)),
               e_id (leaf_edge d_graph x))) as Hslot by (now rewrite <- Hle).
    rewrite <- Hslot in Heq.
    destruct (incident_slot_injective x v _ e Hex He Heq) as [-> _]. congruence.
Qed.

(** X10. After [init], at every edge of an active bifurcation the pair cached
    for the end next to the vertex is the output of the junction solver for
    that edge, called on the exchanged boundary values of all the edges of the
    vertex. *)
Theorem junction_fluxes_cached (t : double) (u_prev : list double) (v : nat) (w : World)
    (i e : nat) :
  flux_sized d_graph (self w) ->
  v ∈ get_active_vertex_ids d_graph ->
  is_bifurcation (get_vertex d_graph v) = true ->
  is_leaf (get_vertex d_graph v) = false ->
  NoDup (v_edge_neighbors (get_vertex d_graph v)) ->
  v_edge_neighbors (get_vertex d_graph v) !! i = Some e ->
  let w' := snd (init t u_prev w) in
  let up := junction_solution solve_at_nfurcation d_graph (self w') v in
  cached_flux (self w') (is_pointing_to (get_edge d_graph e) v) e
  = (vec_get (fst up) i, vec_get (snd up) i).
Proof. exact (init_junction_cached t u_prev v w i e). Qed.

(** X12. [init] followed by [get_fluxes_on_nfurcation] for the same time [t]
    (not NaN) at an active bifurcation hands back what the junction solver
    returned for the exchanged boundary values: entry [i] of the two vectors is
    entry [i] of the solver's vectors, for each edge of the vertex. *)
Theorem nfurcation_accessor_after_init (t : double) (u_prev : list double) (v : nat)
    (Q_up A_up : list double) (w : World) :
  flux_sized d_graph (self w) ->
  v ∈ get_active_vertex_ids d_graph ->
  is_bifurcation (get_vertex d_graph v) = true ->
  is_leaf (get_vertex d_graph v) = false ->
  NoDup (v_edge_neighbors (get_vertex d_graph v)) ->
  double_ne t t = false ->
  let w' := snd (init t u_prev w) in
  let up := junction_solution solve_at_nfurcation d_graph (self w') v in
  let n := List.length (v_edge_neighbors (get_vertex d_graph v)) in
  get_fluxes_on_nfurcation t (get_vertex d_graph v) Q_up A_up w'
  = (Ok (map (vec_get (fst up)) (seq 0 n), map (vec_get (snd up)) (seq 0 n)), w').
Proof.
  intros Hsz Hin Hbif Hnoleaf Hnodup Ht. cbv zeta.
  set (w' := snd (init t u_prev w)).
  rewrite (surjective_pairing (get_fluxes_on_nfurcation _ _ _ _ _)).
  rewrite (proj2 (get_fluxes_on_nfurcation_guard d_graph t (get_vertex d_graph v) Q_up A_up w')).
  rewrite get_fluxes_on_nfurcation_run. unfold w' at 1.
  rewrite (init_current_t pow calculate_W1_value calculate_W2_value solve_W12 assemble_in_flow
             solve_at_nfurcation update_ghost_layer evaluate_dof_at_boundary_points
             extract_dof d_graph d_dof_map t u_prev w), Ht.
  f_equal. f_equal. f_equal.
  - apply list_eq. intros i. rewrite !list_lookup_fmap.
    destruct (v_edge_neighbors (get_vertex d_graph v) !! i) as [e|] eqn:Hi.
    + rewrite lookup_seq_lt by (now apply lookup_lt_Some in Hi). cbn [fmap option_fmap option_map].
      rewrite (gc_edge_id _ Hgraph), (gc_vertex_id _ Hgraph). unfold w'.
      now rewrite (init_junction_cached t u_prev v w i e Hsz Hin Hbif Hnoleaf Hnodup Hi).
    + rewrite lookup_seq_ge by (now apply lookup_ge_None in Hi). reflexivity.
  - apply list_eq. intros i. rewrite !list_lookup_fmap.
    destruct (v_edge_neighbors (get_vertex d_graph v) !! i) as [e|] eqn:Hi.
    + rewrite lookup_seq_lt by (now apply lookup_lt_Some in Hi). cbn [fmap option_fmap option_map].
      rewrite (gc_edge_id _ Hgraph), (gc_vertex_id _ Hgraph). unfold w'.
      now rewrite (init_junction_cached t u_prev v w i e Hsz Hin Hbif Hnoleaf Hnodup Hi).
    + rewrite lookup_seq_ge by (now apply lookup_ge_None in Hi). reflexivity.
Qed.

End Junctions.

End EvaluatorExtras.

(** ** The further properties on the small network *)

(** X2 with W = 4, p_c = -2 and A = 0.25: the fourth iterate is the first
    with a NaN residual; the solve stops there, silently. *)
Lemma windkessel_newton_stops_at_nan_witness :
  let s := windkessel_newton Sample.pow Sample.data 4 (-2) 0.25 in
  ns_num_iter s = 4%Z /\ PrimFloat.is_nan (ns_error s) = true /\ ns_cerr s = [].
Proof.
  pose proof (windkessel_newton_stops_at_nan Sample.pow Sample.data 4 (-2) 0.25 4) as H.
  cbv zeta in H.
  discharge H by lia.
  discharge H by by_evaluation.
  discharge H by (intros i Hi; assert (i = 1 \/ i = 2 \/ i = 3) as [->|[->| ->]] by lia;
                  by_evaluation).
  destruct H as (_ & Hn & He & Hc). cbv zeta. split; [exact Hn|]. split; [exact He|exact Hc].
Defined.

(** X6 after two calls of [init] on a fresh evaluator of the sample network. *)
Lemma cache_sizes_invariant_witness :
  flux_sized Sample.graph
    (self (snd (Sample.init 0.75 Sample.flowing (Sample.after_init 0.5 Sample.flowing)))).
Proof.
  pose proof (cache_sizes_invariant Sample.pow Sample.calculate_W1_value
                Sample.calculate_W2_value Sample.solve_W12 Sample.assemble_in_flow
                Sample.solve_at_nfurcation Sample.update_ghost_layer
                Sample.evaluate_dof_at_boundary_points Sample.evaluate_dof_at_quadrature_points
                Sample.extract_dof Sample.graph Sample.dof_map
                (snd (Sample.init 0.75 Sample.flowing (Sample.after_init 0.5 Sample.flowing))))
    as H.
  discharge H by (unfold Sample.after_init, Sample.init, Sample.fresh;
                  apply reachable_init, reachable_init, reachable_new).
  exact H.
Defined.

(** X7 on the worker that owns vertices 0 and 1: the slot of the right end of
    edge 2, which the other worker resolves, keeps the pair it held. *)
Lemma init_leaves_other_slots_witness :
  cached_flux (self (snd (Worker.init 0.5 Sample.flowing Worker.used))) true 2
  = (0.125%float, 1.125%float).
Proof.
  pose proof (init_leaves_other_slots Sample.pow Sample.calculate_W1_value
                Sample.calculate_W2_value Sample.solve_W12 Sample.assemble_in_flow
                Sample.solve_at_nfurcation Sample.update_ghost_layer
                Sample.evaluate_dof_at_boundary_points Sample.extract_dof
                Worker.graph Sample.dof_map 0.5%float Sample.flowing Worker.used true 2) as H.
  discharge H by (intros x Hx _; apply list_elem_of_In in Hx; simpl in Hx;
                  destruct Hx as [<-|[<-|[]]]; vm_compute; discriminate).
  discharge H by (intros x e Hx _ He; apply list_elem_of_In in Hx; simpl in Hx;
                  destruct Hx as [<-|[<-|[]]]; apply list_elem_of_In in He; simpl in He;
                  intuition (subst; vm_compute; discriminate)).
  vm_compute in H. vm_compute. exact H.
Defined.

(** X8 on the same worker: slot 4, the left end of edge 2, is not touched
    by the extraction. *)
Lemma extraction_leaves_other_slots_witness :
  let w' := snd (evaluate_macro_edge_boundary_values Sample.evaluate_dof_at_boundary_points
                   Sample.extract_dof Worker.graph Sample.dof_map Sample.flowing Worker.used) in
  d_Q_macro_edge_boundary_value (self w') !! 4 = Some 0.125%float /\
  d_A_macro_edge_boundary_value (self w') !! 4 = Some 1.125%float.
Proof.
  pose proof (extraction_leaves_other_slots Sample.evaluate_dof_at_boundary_points
                Sample.extract_dof Worker.graph Sample.dof_map Sample.flowing Worker.used 4)
    as H.
  discharge H by (intros x Hx; apply list_elem_of_In in Hx; simpl in Hx;
                  destruct Hx as [<-|[<-|[]]]; simpl; lia).
  cbv zeta in H. destruct H as (_ & _ & HQ & HA). cbv zeta. split.
  - vm_compute in HQ. vm_compute. exact HQ.
  - vm_compute in HA. vm_compute. exact HA.
Defined.

(** X9 at edge 1 of the sample network in the flowing state: Q = 0.5 and
    A = 1.25 at its left end, Q = 0 and A = 1 at its right end. *)
Lemma extraction_stores_end_traces_witness :
  let w' := snd (evaluate_macro_edge_boundary_values Sample.evaluate_dof_at_boundary_points
                   Sample.extract_dof Sample.graph Sample.dof_map Sample.flowing Sample.fresh) in
  vec_get (d_Q_macro_edge_boundary_value (self w')) 2 = 0.5%float /\
  vec_get (d_A_macro_edge_boundary_value (self w')) 2 = 1.25%float /\
  vec_get (d_Q_macro_edge_boundary_value (self w')) 3 = 0%float /\
  vec_get (d_A_macro_edge_boundary_value (self w')) 3 = 1%float.
Proof.
  pose proof (extraction_stores_end_traces Sample.evaluate_dof_at_boundary_points
                Sample.extract_dof Sample.graph Sample.dof_map Sample.flowing 1 Sample.fresh)
    as H.
  discharge H by (intros x Hx; apply list_elem_of_In in Hx; simpl in Hx;
                  intuition (subst; reflexivity)).
  discharge H by (apply list_elem_of_In; simpl; lia).
  discharge H by (vm_compute; lia).
  discharge H by (vm_compute; lia).
  cbv zeta in H. destruct H as (H1 & H2 & H3 & H4). cbv zeta.
  split; [vm_compute in H1; vm_compute; exact H1|].
  split; [vm_compute in H2; vm_compute; exact H2|].
  split; [vm_compute in H3; vm_compute; exact H3|].
  vm_compute in H4; vm_compute; exact H4.
Defined.

Lemma sample_junction_edges : NoDup (v_edge_neighbors (get_vertex Sample.graph 1)).
Proof. apply NoDup_ListNoDup. repeat constructor; simpl; intuition lia. Qed.

(** X10 at the bifurcation of the sample network, vertex 1, and its second
    edge, edge 1, which leaves the vertex: the sample junction solver hands
    the boundary values back, Q = 0.5 and A = 1.25. *)
Lemma junction_fluxes_cached_witness :
  cached_flux (self (Sample.after_init 0.5 Sample.flowing)) false 1
  = (0.5%float, 1.25%float).
Proof.
  pose proof (junction_fluxes_cached Sample.pow Sample.calculate_W1_value
                Sample.calculate_W2_value Sample.solve_W12 Sample.assemble_in_flow
                Sample.solve_at_nfurcation Sample.update_ghost_layer
                Sample.evaluate_dof_at_boundary_points Sample.extract_dof
                Sample.graph Sample.dof_map sample_graph_consistent
                0.5%float Sample.flowing 1 Sample.fresh 1 1
                sample_fresh_sized (sample_active 1 ltac:(lia))) as H.
  discharge H by reflexivity.
  discharge H by reflexivity.
  discharge H by exact sample_junction_edges.
  discharge H by reflexivity.
  cbv zeta in H. etransitivity; [exact H|]. by_evaluation.
Defined.

(** X12 at the same vertex: the accessor returns the three pairs of the
    junction solver, in the order of the edges 0, 1, 2. *)
Lemma nfurcation_accessor_after_init_witness :
  fst (get_fluxes_on_nfurcation Sample.graph 0.5 (get_vertex Sample.graph 1) [] []
         (Sample.after_init 0.5 Sample.flowing))
  = Ok ([0; 0.5; 0]%float, [1; 1.25; 1]%float).
Proof.
  pose proof (nfurcation_accessor_after_init Sample.pow Sample.calculate_W1_value
                Sample.calculate_W2_value Sample.solve_W12 Sample.assemble_in_flow
                Sample.solve_at_nfurcation Sample.update_ghost_layer
                Sample.evaluate_dof_at_boundary_points Sample.extract_dof
                Sample.graph Sample.dof_map sample_graph_consistent
                0.5%float Sample.flowing 1 [] [] Sample.fresh
                sample_fresh_sized (sample_active 1 ltac:(lia))) as H.
  discharge H by reflexivity.
  discharge H by reflexivity.
  discharge H by exact sample_junction_edges.
  discharge H by by_evaluation.
  cbv zeta in H. apply (f_equal fst) in H.
  vm_compute in H. vm_compute. exact H.
Defined.

(** X3 on the sample network: its Windkessel vertex has one dof and every
    leaf is of a known kind, so [init] returns normally. *)
Lemma init_outcome_witness :
  fst (Sample.init 0.5 Sample.flowing Sample.fresh) = Ok tt.
Proof.
  pose proof (init_outcome Sample.pow Sample.calculate_W1_value
                Sample.calculate_W2_value Sample.solve_W12 Sample.assemble_in_flow
                Sample.solve_at_nfurcation Sample.update_ghost_layer
                Sample.evaluate_dof_at_boundary_points Sample.extract_dof
                Sample.graph Sample.dof_map 0.5%float Sample.flowing Sample.fresh) as H.
  discharge H by (intros x Hx _ Hw; apply list_elem_of_In in Hx; simpl in Hx;
                  destruct Hx as [<-|[<-|[<-|[<-|[]]]]]; try discriminate Hw; reflexivity).
  etransitivity; [exact H|]. by_evaluation.
Defined.

(** X13 at edge 1 of the sample network in the flowing state, with vectors
    that held 7 in each of their three entries. *)
Lemma macro_edge_accessor_outcome_witness :
  fst (Sample.get_fluxes_on_macro_edge 0.5 (get_edge Sample.graph 1) Sample.flowing
         [7; 7; 7]%float [7; 7; 7]%float (Sample.after_init 0.5 Sample.flowing))
  = Ok ([0.5; 0.42612302636911958; 0]%float, [1.25; 1.3538781383999541; 1]%float).
Proof.
  pose proof (macro_edge_accessor_outcome Sample.calculate_W1_value
                Sample.calculate_W2_value Sample.solve_W12
                Sample.evaluate_dof_at_quadrature_points Sample.extract_dof Sample.dof_map
                0.5%float (get_edge Sample.graph 1) Sample.flowing
                [7; 7; 7]%float [7; 7; 7]%float (Sample.after_init 0.5 Sample.flowing)) as H.
  cbv zeta in H.
  discharge H by reflexivity.
  discharge H by reflexivity.
  etransitivity; [exact H|]. by_evaluation.
Defined.
